(** * EventHorizon: the evolutionary engine of [mcp_core.ts]

    A shallow embedding of the class [EvolutionaryEngine] and of the
    properties its specification states about it.

    Modelling decisions, shared by the whole file.

    - Numbers.  A JavaScript number is a rational ([Q]) or one of the three
      non-finite values.  Arithmetic is exact within the range of binary64
      and gives an infinity beyond it, as binary64 does for a result of
      magnitude [2^1024 - 2^970] or more; the rounding of a result within
      the range is not modelled.  Numbers that arrive in arguments are
      parsed JSON, so scores, weights and the configuration are [Q]; a
      JSON number too large for binary64 parses to an infinity, and so a
      weight or a threshold of that magnitude is read as one where the
      code computes with it.  [compositeScore] and the statistics derived
      from it are [number].
    - Arguments.  Every operation takes [input: unknown].  An argument the
      code tests dynamically is an [option]: [None] stands for a value that
      is missing or fails that test.  An [input] that is no object at all
      makes the first property read throw, before anything is written; it
      is not modelled apart from the validation errors.
    - Objects.  A [Solution] is a mutable object that [solutions] and
      [bestSolution] both reference, so the engine carries a store of
      solution objects and the two fields hold addresses into it.
    - Environment.  [Date.now()] and [generateId()] are read from the
      environment: the value they return is an argument of the operation.
    - A [try]/[catch] wraps each operation body: an exception becomes the
      error payload, and whatever was mutated before it was thrown stays
      mutated.  Operations are therefore computations in a state monad with
      errors whose state survives a failure.
    - Logging goes to stderr and is left out; the template strings it is
      handed are evaluated all the same, and on the values of the model
      none of them can throw. *)

From Stdlib Require Import QArith Qround ZArith Lia Lqa Ascii String List.
From stdpp Require Import gmap strings list fin_maps fin_sets pretty.

Close Scope Q_scope.
Local Open Scope string_scope.
Local Open Scope list_scope.

(** ** JavaScript numbers *)

Module Num.

Inductive number : Type :=
| Fin (q : Q)
| PosInf
| NegInf
| NaN.

(** [x < y] on finite values. *)
Definition Qltb (x y : Q) : bool := negb (Qle_bool y x).

(** Truthiness of a finite number: every value but zero. *)
Definition truthy (q : Q) : bool := negb (Qeq_bool q 0).

(** [x || d] for a finite number [x]. *)
Definition or_else (x : option Q) (d : Q) : Q :=
  match x with
  | Some q => if truthy q then q else d
  | None => d
  end.

(** The magnitude from which binary64 rounds to an infinity: half an ulp
    above the largest finite value, [2^1024 - 2^970]. *)
Definition overflow_threshold : Q := inject_Z (2 ^ 1024 - 2 ^ 970).

(** The binary64 value of an exact result, or of a JSON number, [q]: an
    infinity when binary64 overflows, [q] itself otherwise. *)
Definition overflow (q : Q) : number :=
  if Qle_bool overflow_threshold q then PosInf
  else if Qle_bool q (- overflow_threshold) then NegInf
  else Fin q.

(** [x + y]. *)
Definition add (x y : number) : number :=
  match x, y with
  | NaN, _ | _, NaN => NaN
  | Fin a, Fin b => overflow (a + b)
  | PosInf, NegInf | NegInf, PosInf => NaN
  | PosInf, _ | _, PosInf => PosInf
  | NegInf, _ | _, NegInf => NegInf
  end.

(** The product of the finite number [a] and an infinity, positive or
    not: zero times an infinity is [NaN]. *)
Definition signed (positive : bool) (a : Q) : number :=
  if Qeq_bool a 0 then NaN
  else if Bool.eqb (Qltb 0 a) positive then PosInf else NegInf.

(** [x * y]. *)
Definition mul (x y : number) : number :=
  match x, y with
  | NaN, _ | _, NaN => NaN
  | Fin a, Fin b => overflow (a * b)
  | Fin a, PosInf | PosInf, Fin a => signed true a
  | Fin a, NegInf | NegInf, Fin a => signed false a
  | PosInf, PosInf | NegInf, NegInf => PosInf
  | PosInf, NegInf | NegInf, PosInf => NegInf
  end.

(** [x / y].  A zero divisor is the positive zero: the divisors of the
    engine are an array length and a sum that starts from [0], neither of
    which is ever the negative zero. *)
Definition div (x y : number) : number :=
  match x, y with
  | NaN, _ | _, NaN => NaN
  | Fin a, Fin b =>
      if Qeq_bool b 0 then
        if Qeq_bool a 0 then NaN
        else if Qltb 0 a then PosInf else NegInf
      else overflow (a / b)
  | Fin _, (PosInf | NegInf) => Fin 0
  | PosInf, Fin b => if Qltb b 0 then NegInf else PosInf
  | NegInf, Fin b => if Qltb b 0 then PosInf else NegInf
  | (PosInf | NegInf), (PosInf | NegInf) => NaN
  end.

(** [x > y]: false as soon as one side is [NaN]. *)
Definition gtb (x y : number) : bool :=
  match x, y with
  | NaN, _ | _, NaN => false
  | Fin a, Fin b => Qltb b a
  | PosInf, PosInf => false
  | PosInf, _ => true
  | _, PosInf => false
  | NegInf, _ => false
  | Fin _, NegInf => true
  end.

(** [x >= y]. *)
Definition geb (x y : number) : bool :=
  match x, y with
  | NaN, _ | _, NaN => false
  | Fin a, Fin b => Qle_bool b a
  | PosInf, _ => true
  | _, NegInf => true
  | _, PosInf => false
  | NegInf, Fin _ => false
  end.

Definition is_NaN (x : number) : bool :=
  match x with NaN => true | _ => false end.

(** One step of [Math.max]: a [NaN] argument makes the result [NaN]. *)
Definition max2 (acc x : number) : number :=
  match acc, x with
  | NaN, _ | _, NaN => NaN
  | _, _ => if gtb x acc then x else acc
  end.

(** [Math.max(...l)]: minus infinity for no argument. *)
Definition Math_max (l : list number) : number := fold_left max2 l NegInf.

End Num.
Export Num.

(** ** Data model *)

Module Solution.
Record t : Type := mk {
  id : string;
  content : string;
  generation : nat;
  scores : gmap string Q;
  compositeScore : number;
  parentSolutions : list string;
  timestamp : Z
}.
End Solution.

Module ConsistencyCheck.
(** [description] is [None] when the stored value is not a string (the
    field is copied from the input unchecked). *)
Record t : Type := mk {
  id : string;
  description : option string;
  weight : Q
}.
End ConsistencyCheck.

(** Address of a solution object in the store. *)
Abbreviation addr := nat.

Record EvolutionState : Type := mkState {
  problemStatement : string;
  consistencyChecks : list ConsistencyCheck.t;
  currentGeneration : nat;
  maxGenerations : Q;
  populationSize : Q;
  convergenceThreshold : Q;
  solutions : gmap string addr;
  generationHistory : gmap nat (list string);
  bestSolution : option addr;
  isComplete : bool;
  startTime : Z
}.

Module CrossoverRecommendation.
(** [score] is [bestForCheck.scores[check.id]], which is [undefined] when
    the selected solution has no score for the check. *)
Record t : Type := mk {
  checkId : string;
  bestSolutionId : string;
  score : option Q;
  relevantContent : string
}.
End CrossoverRecommendation.

(** The engine: the field [evolutionState] ([null] before the first
    successful start) and the solution objects it references. *)
Record Engine : Type := mkEngine {
  store : list Solution.t;
  evolutionState : option EvolutionState
}.

Definition initial : Engine := mkEngine [] None.

(** ** Errors and the operation monad *)

Inductive Error : Type :=
| NotStarted
| ProblemStatementRequired
| ConsistencyChecksRequired
| ContentRequired
| SolutionIdRequired
| CheckIdRequired
| ScoreRequired
| SolutionNotFound (solutionId : string)
| CheckNotFound (checkId : string)
| NoSolutions
| NoFullyScored
| TypeError.

(** The [error] field of the failure payload.  The text of a [TypeError] is
    the JavaScript engine's own. *)
Definition message (err : Error) : string :=
  match err with
  | NotStarted => "Evolution not started. Call start_evolution first."
  | ProblemStatementRequired => "problemStatement is required and must be a string"
  | ConsistencyChecksRequired => "consistencyChecks is required and must be an array"
  | ContentRequired => "Solution content is required and must be a string"
  | SolutionIdRequired => "solutionId is required and must be a string"
  | CheckIdRequired => "checkId is required and must be a string"
  | ScoreRequired => "score is required and must be a number between 0 and 1"
  | SolutionNotFound i => "Solution " +:+ i +:+ " not found"
  | CheckNotFound i => "Consistency check " +:+ i +:+ " not found"
  | NoSolutions => "No solutions in current generation"
  | NoFullyScored => "No fully scored solutions in current generation"
  | TypeError => "TypeError"
  end.

(** The errors the engine throws itself, with [throw new Error(...)]: the
    validation, not-found, not-started and precondition errors.  A
    [TypeError] is raised by the JavaScript runtime instead. *)
Definition thrown (err : Error) : bool :=
  match err with
  | TypeError => false
  | _ => true
  end.

Inductive Result (A : Type) : Type :=
| Ok (a : A)
| Failed (err : Error).
Arguments Ok {A} a.
Arguments Failed {A} err.

Definition is_error {A} (r : Result A) : bool :=
  match r with Ok _ => false | Failed _ => true end.

(** A body run under [try]/[catch]: the outcome and the engine it leaves. *)
Definition Op (A : Type) : Type := Engine -> Result A * Engine.

Definition ret {A} (a : A) : Op A := fun e => (Ok a, e).

Definition throw {A} (err : Error) : Op A := fun e => (Failed err, e).

Definition bind {A B} (m : Op A) (k : A -> Op B) : Op B :=
  fun e =>
    match m e with
    | (Ok a, e') => k a e'
    | (Failed err, e') => (Failed err, e')
    end.

Notation "'let*' x ':=' m 'in' k" := (bind m (fun x => k))
  (at level 10, x pattern, m at level 100, k at level 200).
Notation "m ';;' k" := (bind m (fun _ => k))
  (at level 100, k at level 200, right associativity).

(** [if (!this.evolutionState) throw ...], then the state. *)
Definition getState : Op EvolutionState :=
  fun e =>
    match evolutionState e with
    | Some st => (Ok st, e)
    | None => (Failed NotStarted, e)
    end.

(** An assignment to a field of [this.evolutionState]. *)
Definition setState (st : EvolutionState) : Op unit :=
  fun e => (Ok tt, mkEngine (store e) (Some st)).

(** Reading through a reference.  A reference always designates an object;
    an address outside the store has no counterpart in the program and is
    reported as a [TypeError]. *)
Definition deref (a : addr) : Op Solution.t :=
  fun e =>
    match store e !! a with
    | Some s => (Ok s, e)
    | None => (Failed TypeError, e)
    end.

(** A write to a field of the object at [a]. *)
Definition assign (a : addr) (s : Solution.t) : Op unit :=
  fun e => (Ok tt, mkEngine (<[a := s]> (store e)) (evolutionState e)).

(** A new object; its address is the next free one. *)
Definition alloc (s : Solution.t) : Op addr :=
  fun e =>
    (Ok (length (store e)), mkEngine (store e ++ [s])%list (evolutionState e)).

(** A computation that may throw a [TypeError] and touches nothing. *)
Definition orTypeError {A} (x : option A) : Op A :=
  match x with
  | Some a => ret a
  | None => throw TypeError
  end.

(** ** The content excerpt of a recommendation *)

Module Excerpt.

(** Characters are bytes: the functions below agree with the source on
    ASCII text. *)

(** White space of [trim] and of the class [\s]. *)
Definition is_space (c : ascii) : bool :=
  let n := nat_of_ascii c in
  (n =? 32)%nat || ((9 <=? n)%nat && (n <=? 13)%nat).

(** The class [[.!?]]. *)
Definition is_terminator (c : ascii) : bool :=
  let n := nat_of_ascii c in
  (n =? 46)%nat || (n =? 33)%nat || (n =? 63)%nat.

(** Split at every character satisfying [p].  The source splits at runs of
    them; the segments differ by empty ones only, which both callers
    filter out. *)
Fixpoint split_when (p : ascii -> bool) (s : string) : list string :=
  match s with
  | EmptyString => [EmptyString]
  | String c s' =>
      if p c then EmptyString :: split_when p s'
      else
        match split_when p s' with
        | seg :: segs => String c seg :: segs
        | [] => [String c EmptyString]
        end
  end.

Fixpoint all_space (s : string) : bool :=
  match s with
  | EmptyString => true
  | String c s' => is_space c && all_space s'
  end.

Definition lower (c : ascii) : ascii :=
  let n := nat_of_ascii c in
  if (65 <=? n)%nat && (n <=? 90)%nat then ascii_of_nat (n + 32) else c.

Fixpoint toLowerCase (s : string) : string :=
  match s with
  | EmptyString => EmptyString
  | String c s' => String (lower c) (toLowerCase s')
  end.

Fixpoint includes (s keyword : string) : bool :=
  String.prefix keyword s ||
  match s with
  | EmptyString => false
  | String _ s' => includes s' keyword
  end.

Definition extractRelevantContent (content checkDescription : string) : string :=
  let sentences :=
    List.filter (fun s => negb (all_space s)) (split_when is_terminator content) in
  let keywords :=
    List.filter (fun w => (3 <? String.length w)%nat)
      (split_when is_space (toLowerCase checkDescription)) in
  let relevantSentences :=
    List.filter
      (fun sentence => existsb (fun keyword => includes (toLowerCase sentence) keyword) keywords)
      sentences in
  if (0 <? length relevantSentences)%nat
  then String.concat ". " relevantSentences +:+ "."
  else String.substring 0 200 content +:+ "...".

End Excerpt.

(** ** Arguments and replies *)

(** An element of [data.consistencyChecks]. *)
Inductive CheckInput : Type :=
| CheckString (s : string)
    (** a string *)
| CheckRecord (description : option string) (weight : option Q)
    (** any other non-null value: [description] is the property of that
        name when it is a string, [weight] when it is a number (a value
        that is not an object has neither).  A description that is not a
        string is stored as it is and only ever passed to
        [extractRelevantContent], where it throws as a missing one does; a
        weight that is neither a number nor falsy is outside the model (the
        source stores it unchecked, and the sums of [scoreSolution] may
        then raise a [TypeError] after the score is written) *)
| CheckNull.
    (** [null] or [undefined] *)

(** The numbers are [None] when absent; a value of another type, which the
    casts [as number] let through, is outside the model (the source stores
    it unchecked, and printing it in the log line that follows may raise a
    [TypeError] after the session is replaced). *)
Module StartInput.
Record t : Type := mk {
  problemStatement : option string;
  consistencyChecks : option (list CheckInput);
  maxGenerations : option Q;
  populationSize : option Q;
  convergenceThreshold : option Q
}.
End StartInput.

Module AddInput.
Record t : Type := mk {
  content : option string;
  parentSolutions : option (list string)
}.
End AddInput.

Module ScoreInput.
Record t : Type := mk {
  solutionId : option string;
  checkId : option string;
  score : option Q
}.
End ScoreInput.

Inductive Reason : Type := convergence | max_generations.

(** The success payloads, without their [message] texts.  A focus area is
    the triple its line of text is printed from. *)
Inductive Reply : Type :=
| Started (problemStatement : string) (consistencyChecks : list ConsistencyCheck.t)
    (currentGeneration : nat) (maxGenerations populationSize : Q)
| Added (solutionId : string) (generation currentPopulationSize : nat)
    (targetPopulationSize : Q)
| Scored (solutionId checkId : string) (score : Q) (compositeScore : number)
    (completedScores totalChecks : nat) (isFullyScored : bool)
| Complete (reason : Reason) (currentGeneration : nat) (bestSolution : option Solution.t)
    (finalScore averageScore : number) (totalTime : Z)
| Evolved (newGeneration : nat) (averageScore bestScore : number) (populationSize : nat)
    (crossoverRecommendations : list CrossoverRecommendation.t)
    (populationTarget : Q) (focusAreas : list (string * string * Q))
| StatusNotStarted
| StatusActive (currentGeneration : nat) (maxGenerations : Q) (populationSize : nat)
    (targetPopulationSize : Q) (fullyScored : nat) (bestSolution : option Solution.t)
    (isComplete : bool) (runningTime : Z) (generationHistory : gmap nat nat).

(** ** Field updates *)

Definition with_scores (s : Solution.t) (m : gmap string Q) : Solution.t :=
  Solution.mk (Solution.id s) (Solution.content s) (Solution.generation s) m
    (Solution.compositeScore s) (Solution.parentSolutions s) (Solution.timestamp s).

Definition with_compositeScore (s : Solution.t) (c : number) : Solution.t :=
  Solution.mk (Solution.id s) (Solution.content s) (Solution.generation s)
    (Solution.scores s) c (Solution.parentSolutions s) (Solution.timestamp s).

Definition with_bestSolution (st : EvolutionState) (b : option addr) : EvolutionState :=
  mkState (problemStatement st) (consistencyChecks st) (currentGeneration st)
    (maxGenerations st) (populationSize st) (convergenceThreshold st)
    (solutions st) (generationHistory st) b (isComplete st) (startTime st).

Definition with_isComplete (st : EvolutionState) (b : bool) : EvolutionState :=
  mkState (problemStatement st) (consistencyChecks st) (currentGeneration st)
    (maxGenerations st) (populationSize st) (convergenceThreshold st)
    (solutions st) (generationHistory st) (bestSolution st) b (startTime st).

Definition with_currentGeneration (st : EvolutionState) (g : nat) : EvolutionState :=
  mkState (problemStatement st) (consistencyChecks st) g
    (maxGenerations st) (populationSize st) (convergenceThreshold st)
    (solutions st) (generationHistory st) (bestSolution st) (isComplete st) (startTime st).

Definition with_solution (st : EvolutionState) (m : gmap string addr)
    (h : gmap nat (list string)) : EvolutionState :=
  mkState (problemStatement st) (consistencyChecks st) (currentGeneration st)
    (maxGenerations st) (populationSize st) (convergenceThreshold st)
    m h (bestSolution st) (isComplete st) (startTime st).

(** ** startEvolution *)

(** [`check_${index + 1}`]. *)
Definition checkName (index : nat) : string := "check_" +:+ pretty (index + 1).

(** The callback of [data.consistencyChecks.map]; reading [check.description]
    of [null] throws. *)
Definition normalizeCheck (check : CheckInput) (index : nat) : option ConsistencyCheck.t :=
  match check with
  | CheckString s => Some (ConsistencyCheck.mk (checkName index) (Some s) 1)
  | CheckRecord d w => Some (ConsistencyCheck.mk (checkName index) d (or_else w 1))
  | CheckNull => None
  end.

Fixpoint mapChecks (index : nat) (checks : list CheckInput) : option (list ConsistencyCheck.t) :=
  match checks with
  | [] => Some []
  | check :: rest =>
      match normalizeCheck check index, mapChecks (S index) rest with
      | Some c, Some cs => Some (c :: cs)
      | _, _ => None
      end
  end.

(** [!x || typeof x !== 'string'] for a required string argument. *)
Definition requireString (x : option string) (err : Error) : Op string :=
  match x with
  | Some s => if bool_decide (s = "") then throw err else ret s
  | None => throw err
  end.

(** [this.evolutionState = st]: the objects of the session it replaces are
    referenced no more. *)
Definition replaceSession (st : EvolutionState) : Op unit :=
  fun _ => (Ok tt, mkEngine [] (Some st)).

(** The object assigned to [this.evolutionState]. *)
Definition startedState (input : StartInput.t) (now : Z) (problem : string)
    (checks : list ConsistencyCheck.t) : EvolutionState :=
  mkState problem checks 0
    (or_else (StartInput.maxGenerations input) 5)
    (or_else (StartInput.populationSize input) 3)
    (or_else (StartInput.convergenceThreshold input) (95 # 100))
    ∅ ∅ None false now.

Definition startEvolution (input : StartInput.t) (now : Z) : Op Reply :=
  let* problem := requireString (StartInput.problemStatement input) ProblemStatementRequired in
  let* checks :=
    match StartInput.consistencyChecks input with
    | Some l => ret l
    | None => throw ConsistencyChecksRequired
    end in
  let* consistencyChecks := orTypeError (mapChecks 0 checks) in
  let st := startedState input now problem consistencyChecks in
  replaceSession st;;
  ret (Started (problemStatement st) consistencyChecks (currentGeneration st)
         (maxGenerations st) (populationSize st)).

(** ** addSolution *)

(** The object literal [solution]. *)
Definition addedSolution (input : AddInput.t) (newId : string) (now : Z)
    (st : EvolutionState) (content : string) : Solution.t :=
  Solution.mk newId content (currentGeneration st) ∅ (Fin 0)
    (default [] (AddInput.parentSolutions input)) now.

Definition addSolution (input : AddInput.t) (newId : string) (now : Z) : Op Reply :=
  let* st := getState in
  let* content := requireString (AddInput.content input) ContentRequired in
  let solution := addedSolution input newId now st content in
  let* a := alloc solution in
  let bucket :=
    (default [] (generationHistory st !! currentGeneration st) ++ [newId])%list in
  setState (with_solution st (<[newId := a]> (solutions st))
              (<[currentGeneration st := bucket]> (generationHistory st)));;
  ret (Added newId (Solution.generation solution) (length bucket) (populationSize st)).

(** ** scoreSolution *)

(** [solution.scores[check.id] || 0]. *)
Definition scoreOf (s : Solution.t) (check : ConsistencyCheck.t) : Q :=
  or_else (Solution.scores s !! ConsistencyCheck.id check) 0.

Definition totalWeightedScore (checks : list ConsistencyCheck.t) (s : Solution.t) : number :=
  fold_left
    (fun sum check =>
       add sum (mul (Fin (scoreOf s check)) (overflow (ConsistencyCheck.weight check))))
    checks (Fin 0).

Definition totalWeight (checks : list ConsistencyCheck.t) : number :=
  fold_left (fun sum check => add sum (overflow (ConsistencyCheck.weight check)))
    checks (Fin 0).

Definition composite (checks : list ConsistencyCheck.t) (s : Solution.t) : number :=
  div (totalWeightedScore checks s) (totalWeight checks).

Definition findCheck (checks : list ConsistencyCheck.t) (checkId : string)
    : option ConsistencyCheck.t :=
  List.find (fun c => bool_decide (ConsistencyCheck.id c = checkId)) checks.

(** A [solutionId] that names a property every object inherits
    ([constructor], [__proto__], ...) is found by the lookup in the source
    and fails a few lines later with a [TypeError]; here it fails at the
    lookup.  Both are error payloads thrown before anything is written. *)
Definition scoreSolution (input : ScoreInput.t) : Op Reply :=
  let* st := getState in
  let* solutionId := requireString (ScoreInput.solutionId input) SolutionIdRequired in
  let* checkId := requireString (ScoreInput.checkId input) CheckIdRequired in
  let* score :=
    match ScoreInput.score input with
    | Some q => if Qltb q 0 || Qltb 1 q then throw ScoreRequired else ret q
    | None => throw ScoreRequired
    end in
  let* a :=
    match solutions st !! solutionId with
    | Some a => ret a
    | None => throw (SolutionNotFound solutionId)
    end in
  let* _ :=
    match findCheck (consistencyChecks st) checkId with
    | Some c => ret c
    | None => throw (CheckNotFound checkId)
    end in
  let* solution := deref a in
  let scored := with_scores solution (<[checkId := score]> (Solution.scores solution)) in
  assign a scored;;
  let solution := with_compositeScore scored (composite (consistencyChecks st) scored) in
  assign a solution;;
  match bestSolution st with
  | None => setState (with_bestSolution st (Some a))
  | Some b =>
      let* best := deref b in
      if gtb (Solution.compositeScore solution) (Solution.compositeScore best)
      then setState (with_bestSolution st (Some a))
      else ret tt
  end;;
  let completedScores := size (Solution.scores solution) in
  let totalChecks := length (consistencyChecks st) in
  ret (Scored (Solution.id solution) checkId score (Solution.compositeScore solution)
         completedScores totalChecks (completedScores =? totalChecks)%nat).

(** ** evolveGeneration *)

(** [ids.map(id => this.evolutionState.solutions[id])], each element read
    through as [filter] does with [s.scores]: an id without a solution makes
    that read throw. *)
Definition resolve (e : Engine) (st : EvolutionState) (ids : list string)
    : option (list Solution.t) :=
  mapM (fun i => solutions st !! i ≫= fun a => store e !! a) ids.

Definition solutionsOf (st : EvolutionState) (ids : list string) : Op (list Solution.t) :=
  fun e => orTypeError (resolve e st ids) e.

(** [Object.keys(s.scores).length === consistencyChecks.length]. *)
Definition isFullyScored (st : EvolutionState) (s : Solution.t) : bool :=
  (size (Solution.scores s) =? length (consistencyChecks st))%nat.

(** [l.reduce(f)] with no initial value; it throws on an empty array. *)
Definition reduce1 {A} (f : A -> A -> A) (l : list A) : option A :=
  match l with
  | [] => None
  | x :: rest => Some (fold_left f rest x)
  end.

Definition better (check : ConsistencyCheck.t) (best current : Solution.t) : Solution.t :=
  let currentScore := scoreOf current check in
  let bestScore := scoreOf best check in
  if Qltb bestScore currentScore then current else best.

Definition bestForCheck (check : ConsistencyCheck.t) (fullyScored : list Solution.t)
    : option Solution.t :=
  reduce1 (better check) fullyScored.

(** The callback of [consistencyChecks.map].  [extractRelevantContent] calls
    [toLowerCase] on the description and throws when it is not a string. *)
Definition recommend (fullyScored : list Solution.t) (check : ConsistencyCheck.t)
    : option CrossoverRecommendation.t :=
  best ← bestForCheck check fullyScored;
  d ← ConsistencyCheck.description check;
  Some (CrossoverRecommendation.mk
          (ConsistencyCheck.id check)
          (Solution.id best)
          (Solution.scores best !! ConsistencyCheck.id check)
          (Excerpt.extractRelevantContent (Solution.content best) d)).

Definition recommendations (st : EvolutionState) (fullyScored : list Solution.t)
    : option (list CrossoverRecommendation.t) :=
  mapM (recommend fullyScored) (consistencyChecks st).

Definition Qnat (n : nat) : Q := inject_Z (Z.of_nat n).

Definition averageOf (fullyScored : list Solution.t) : number :=
  div (fold_left (fun sum s => add sum (Solution.compositeScore s)) fullyScored (Fin 0))
      (Fin (Qnat (length fullyScored))).

Definition bestOf (fullyScored : list Solution.t) : number :=
  Math_max (Solution.compositeScore <$> fullyScored).

Definition hasConverged (st : EvolutionState) (fullyScored : list Solution.t) : bool :=
  geb (bestOf fullyScored) (overflow (convergenceThreshold st)).

Definition maxGenerationsReached (st : EvolutionState) : bool :=
  Qle_bool (maxGenerations st - 1) (Qnat (currentGeneration st)).

(** The object [bestSolution] references, as [JSON.stringify] prints it. *)
Definition snapshotBest (st : EvolutionState) : Op (option Solution.t) :=
  fun e => (Ok (bestSolution st ≫= fun b => store e !! b), e).

(** [r.score.toFixed(3)] inside a focus line: it throws when the score is
    [undefined]. *)
Definition focusArea (r : CrossoverRecommendation.t) : option (string * string * Q) :=
  q ← CrossoverRecommendation.score r;
  Some (CrossoverRecommendation.checkId r, CrossoverRecommendation.bestSolutionId r, q).

Definition evolveGeneration (now : Z) : Op Reply :=
  let* st := getState in
  let currentGenerationSolutions :=
    default [] (generationHistory st !! currentGeneration st) in
  (if (length currentGenerationSolutions =? 0)%nat then throw NoSolutions else ret tt);;
  let* sols := solutionsOf st currentGenerationSolutions in
  let fullyScored := List.filter (isFullyScored st) sols in
  (if (length fullyScored =? 0)%nat then throw NoFullyScored else ret tt);;
  let* crossoverRecommendations := orTypeError (recommendations st fullyScored) in
  let avgScore := averageOf fullyScored in
  let bestScore := bestOf fullyScored in
  if hasConverged st fullyScored || maxGenerationsReached st then
    setState (with_isComplete st true);;
    let reason := if hasConverged st fullyScored then convergence else max_generations in
    let* best := snapshotBest st in
    ret (Complete reason (currentGeneration st) best bestScore avgScore (now - startTime st))
  else
    setState (with_currentGeneration st (currentGeneration st + 1));;
    let* focusAreas := orTypeError (mapM focusArea crossoverRecommendations) in
    ret (Evolved (currentGeneration st + 1) avgScore bestScore (length fullyScored)
           crossoverRecommendations (populationSize st) focusAreas).

(** ** getEvolutionStatus *)

(** This operation has no [try]/[catch]: a failure here is an exception that
    leaves the method, not an error payload. *)
Definition getEvolutionStatus (now : Z) : Op Reply :=
  fun e =>
    match evolutionState e with
    | None => (Ok StatusNotStarted, e)
    | Some st =>
        let currentGenerationSolutions :=
          default [] (generationHistory st !! currentGeneration st) in
        match resolve e st currentGenerationSolutions with
        | None => (Failed TypeError, e)
        | Some sols =>
            let fullyScored := List.filter (isFullyScored st) sols in
            (Ok (StatusActive (currentGeneration st) (maxGenerations st) (length sols)
                   (populationSize st) (length fullyScored)
                   (bestSolution st ≫= fun b => store e !! b)
                   (isComplete st) (now - startTime st)
                   (length <$> generationHistory st)), e)
        end
    end.

(** ** The five operations as one interface *)

Inductive Call : Type :=
| CallStart (input : StartInput.t) (now : Z)
| CallAdd (input : AddInput.t) (newId : string) (now : Z)
| CallScore (input : ScoreInput.t)
| CallEvolve (now : Z)
| CallStatus (now : Z).

Definition call (c : Call) : Op Reply :=
  match c with
  | CallStart input now => startEvolution input now
  | CallAdd input newId now => addSolution input newId now
  | CallScore input => scoreSolution input
  | CallEvolve now => evolveGeneration now
  | CallStatus now => getEvolutionStatus now
  end.

(** The engine after a sequence of calls. *)
Definition run (calls : list Call) (e : Engine) : Engine :=
  fold_left (fun e c => snd (call c e)) calls e.

(** A call of [startEvolution]. *)
Definition is_start (c : Call) : bool :=
  match c with
  | CallStart _ _ => true
  | _ => false
  end.

(** ** Observations on replies and engines *)

(** The [status] field of a success payload. *)
Definition status (r : Reply) : string :=
  match r with
  | Started _ _ _ _ _ => "started"
  | Added _ _ _ _ => "added"
  | Scored _ _ _ _ _ _ _ => "scored"
  | Complete _ _ _ _ _ _ => "complete"
  | Evolved _ _ _ _ _ _ _ => "evolved"
  | StatusNotStarted => "not_started"
  | StatusActive _ _ _ _ _ _ _ _ _ => "active"
  end.

(** The [reason] field, present in a completion report only. *)
Definition reasonOf (r : Reply) : option Reason :=
  match r with
  | Complete reason _ _ _ _ _ => Some reason
  | _ => None
  end.

(** The [crossoverRecommendations] field, present in an evolved report only. *)
Definition recommendationsOf (r : Reply) : option (list CrossoverRecommendation.t) :=
  match r with
  | Evolved _ _ _ _ recs _ _ => Some recs
  | _ => None
  end.

(** The [compositeScore] field, present in a scored report only. *)
Definition compositeScoreOf (r : Reply) : option number :=
  match r with
  | Scored _ _ _ c _ _ _ => Some c
  | _ => None
  end.

(** The [isFullyScored] field of a scored report. *)
Definition fullyScoredOf (r : Reply) : option bool :=
  match r with
  | Scored _ _ _ _ _ _ b => Some b
  | _ => None
  end.

(** The population counts of a status report. *)
Definition populationOf (r : Reply) : option (nat * nat) :=
  match r with
  | StatusActive _ _ populationSize _ fullyScored _ _ _ _ => Some (populationSize, fullyScored)
  | _ => None
  end.

(** [this.evolutionState.bestSolution.compositeScore], when there is a best
    solution. *)
Definition bestCompositeScore (e : Engine) : option number :=
  st ← evolutionState e;
  b ← bestSolution st;
  s ← store e !! b;
  Some (Solution.compositeScore s).

(** The solution object a solution id designates. *)
Definition solutionAt (e : Engine) (solutionId : string) : option Solution.t :=
  st ← evolutionState e;
  a ← solutions st !! solutionId;
  store e !! a.

(** ** What the operations leave behind *)

(** The object [s] after a successful [scoreSolution] on it. *)
Definition rescored (st : EvolutionState) (s : Solution.t) (checkId : string) (score : Q)
    : Solution.t :=
  let scored := with_scores s (<[checkId := score]> (Solution.scores s)) in
  with_compositeScore scored (composite (consistencyChecks st) scored).

(** ** Invariants of the engine *)

Definition checkIds (st : EvolutionState) : list string :=
  ConsistencyCheck.id <$> consistencyChecks st.

(** Check ids are pairwise distinct, a solution is only ever scored against
    checks of its session, references are never dangling, and the object
    registered under an id carries that id. *)
Definition well_formed (e : Engine) : Prop :=
  match evolutionState e with
  | None => True
  | Some st =>
      NoDup (checkIds st) ∧
      (∀ a s k, store e !! a = Some s → is_Some (Solution.scores s !! k) → k ∈ checkIds st) ∧
      (∀ b, bestSolution st = Some b → b < length (store e)) ∧
      (∀ i a, solutions st !! i = Some a →
         ∃ s, store e !! a = Some s ∧ Solution.id s = i)
  end.

(** The id [i] is in the bucket [generationHistory[g]]. *)
Definition listed (st : EvolutionState) (g : nat) (i : string) : Prop :=
  ∃ ids, generationHistory st !! g = Some ids ∧ i ∈ ids.

(** The invariant of the data model on [generationHistory]: an id listed in
    bucket [g] designates a solution of generation [g], and every id of
    [solutions] is listed in exactly one bucket. *)
Definition history_consistent (e : Engine) : Prop :=
  ∀ st, evolutionState e = Some st →
    (∀ g i, listed st g i →
       ∃ a s, solutions st !! i = Some a ∧ store e !! a = Some s ∧
              Solution.generation s = g) ∧
    (∀ i, is_Some (solutions st !! i) →
       ∃ g, listed st g i ∧ ∀ g', listed st g' i → g' = g).

(** Every score a solution holds passed the range test. *)
Definition scores_in_range (e : Engine) : Prop :=
  ∀ a s, store e !! a = Some s →
    map_Forall (fun _ q => (0 <= q <= 1)%Q) (Solution.scores s).

(** Buckets exist for generations up to the current one only, and the ids
    they list are ids of [solutions]. *)
Definition history_sound (e : Engine) : Prop :=
  ∀ st, evolutionState e = Some st →
    ∀ (g : nat) ids, generationHistory st !! g = Some ids →
      g <= currentGeneration st ∧ ∀ i, i ∈ ids → is_Some (solutions st !! i).

(** The solution [s] has a score for every check of the session. *)
Definition scored_on_every_check (st : EvolutionState) (s : Solution.t) : Prop :=
  ∀ check, check ∈ consistencyChecks st →
    is_Some (Solution.scores s !! ConsistencyCheck.id check).

(** [s] is a fully scored solution of the current generation: an id listed
    in [generationHistory[currentGeneration]] designates it, and it has a
    score for every check. *)
Definition fully_scored_now (e : Engine) (st : EvolutionState) (s : Solution.t) : Prop :=
  ∃ ids i,
    generationHistory st !! currentGeneration st = Some ids ∧ i ∈ ids ∧
    solutionAt e i = Some s ∧ scored_on_every_check st s.

(** [generateId] returned an id that no solution of an earlier generation
    has: when the call adds a solution, a solution that already has the
    new id is one of the current generation. *)
Definition fresh_call (c : Call) (e : Engine) : Prop :=
  match c with
  | CallAdd input newId now =>
      ∀ r e' st s,
        addSolution input newId now e = (Ok r, e') →
        evolutionState e = Some st → solutionAt e newId = Some s →
        Solution.generation s = currentGeneration st
  | _ => True
  end.

(** It did so at every call of a sequence. *)
Fixpoint fresh_run (calls : list Call) (e : Engine) : Prop :=
  match calls with
  | [] => True
  | c :: rest => fresh_call c e ∧ fresh_run rest (snd (call c e))
  end.

(** ** Properties as the specification words them *)




(** Monotonic best-tracking, for every score call in every session. *)
Definition best_score_monotone : Prop :=
  ∀ calls input r e' before after,
    scoreSolution input (run calls initial) = (Ok r, e') →
    bestCompositeScore (run calls initial) = Some before →
    bestCompositeScore e' = Some after →
    geb after before = true.

(** A start whose checks are empty, or hold a record without description,
    fails and leaves the engine as it was. *)
Definition start_rejects_bad_checks : Prop :=
  ∀ input now e checks,
    StartInput.consistencyChecks input = Some checks →
    (checks = [] ∨ ∃ w, CheckRecord None w ∈ checks) →
    ∃ err, startEvolution input now e = (Failed err, e).

(** The invariant on [generationHistory], after every sequence of calls. *)
Definition history_always_consistent : Prop :=
  ∀ calls, history_consistent (run calls initial).

(** ** A sample session

    Two checks of weight 1 and two solutions in generation 0; the first is
    scored 1/2 and 1/4, the second 1/2 and 1/3. *)

Definition demo_start : StartInput.t :=
  StartInput.mk (Some "problem") (Some [CheckString "fast"; CheckString "correct"])
    None None None.

Definition demo_score (solutionId checkId : string) (q : Q) : ScoreInput.t :=
  ScoreInput.mk (Some solutionId) (Some checkId) (Some q).

Definition demo_calls : list Call :=
  [ CallStart demo_start 100;
    CallAdd (AddInput.mk (Some "x") None) "s1" 101;
    CallAdd (AddInput.mk (Some "y") None) "s2" 102;
    CallScore (demo_score "s1" "check_1" (1 # 2));
    CallScore (demo_score "s1" "check_2" (1 # 4));
    CallScore (demo_score "s2" "check_1" (1 # 2));
    CallScore (demo_score "s2" "check_2" (1 # 3)) ].

Definition demo : Engine := run demo_calls initial.

(** The session of the specification's scenarios A to C: the same two
    checks and two solutions, the first then scored 1 on both checks. *)
Definition scenario_calls : list Call :=
  [ CallStart demo_start 0;
    CallAdd (AddInput.mk (Some "x") None) "s1" 1;
    CallAdd (AddInput.mk (Some "y") None) "s2" 2 ].

Definition scenario_scored : list Call :=
  scenario_calls ++
  [ CallScore (demo_score "s1" "check_1" 1); CallScore (demo_score "s1" "check_2" 1) ].


(** A session that has converged in its last generation: one check, one
    generation at most, and a solution scored 1. *)
Definition converged_calls : list Call :=
  [ CallStart (StartInput.mk (Some "p") (Some [CheckString "c"]) (Some 1%Q) None None) 0;
    CallAdd (AddInput.mk (Some "x") None) "s1" 1;
    CallScore (demo_score "s1" "check_1" 1) ].

(** A session in its last generation that has not converged: the same,
    with a solution scored 3/10. *)
Definition exhausted_calls : list Call :=
  [ CallStart (StartInput.mk (Some "p") (Some [CheckString "c"]) (Some 1%Q) None None) 0;
    CallAdd (AddInput.mk (Some "x") None) "s1" 1;
    CallScore (demo_score "s1" "check_1" (3 # 10)) ].

(** A session in which [generateId] returns the id ["s1"] in generation 0
    and again in generation 1. *)
Definition repeated_id_calls : list Call :=
  [ CallStart (StartInput.mk (Some "p") (Some [CheckString "c"]) (Some 3%Q) None None) 0;
    CallAdd (AddInput.mk (Some "x") None) "s1" 1;
    CallScore (demo_score "s1" "check_1" (1 # 2));
    CallEvolve 2;
    CallAdd (AddInput.mk (Some "y") None) "s1" 3 ].

(** A session in which [generateId] returns the id ["s1"] twice within
    generation 0. *)
Definition same_generation_calls : list Call :=
  [ CallStart demo_start 0;
    CallAdd (AddInput.mk (Some "x") None) "s1" 1;
    CallAdd (AddInput.mk (Some "y") None) "s1" 2;
    CallScore (demo_score "s1" "check_1" (1 # 2)) ].

(** ** Proof automation

    Unfolding the operation monad in a hypothesis, with and without
    unfolding the data it works on. *)

Ltac run_op H :=
  unfold bind, getState, setState, requireString, ret, throw, deref, assign, orTypeError in H;
  simpl in H.

Ltac reduce_in H :=
  cbn beta iota zeta delta [default from_option id length Nat.eqb fst snd] in H.

(** * Properties *)

(** ** The order on numbers *)

Lemma Qltb_lt x y : Qltb x y = true ↔ (x < y)%Q.
Proof.
  unfold Qltb. rewrite negb_true_iff. split.
  - intros H. apply Qnot_le_lt. intros Hle. apply Qle_bool_iff in Hle. congruence.
  - intros H. destruct (Qle_bool y x) eqn:E; [|done].
    apply Qle_bool_iff in E. exfalso. by apply (Qlt_not_le x y).
Qed.

Lemma Qltb_ge x y : Qltb x y = false ↔ (y <= x)%Q.
Proof. unfold Qltb. rewrite negb_false_iff. apply Qle_bool_iff. Qed.

Lemma gtb_irrefl x : gtb x x = false.
Proof.
  destruct x as [q| | |]; simpl; try done.
  apply Qltb_ge, Qle_refl.
Qed.

Lemma gtb_geb x y : gtb x y = true → geb x y = true.
Proof.
  destruct x as [a| | |], y as [b| | |]; simpl; try done.
  intros H%Qltb_lt. by apply Qle_bool_iff, Qlt_le_weak.
Qed.

Lemma geb_refl x : is_NaN x = false → geb x x = true.
Proof.
  destruct x as [q| | |]; simpl; try done.
  intros _. apply Qle_bool_iff, Qle_refl.
Qed.

Lemma geb_trans x y z : geb x y = true → geb y z = true → geb x z = true.
Proof.
  destruct x as [a| | |], y as [b| | |], z as [c| | |]; simpl; try done.
  rewrite !Qle_bool_iff. intros H1 H2. by eapply Qle_trans.
Qed.

Lemma or_else_default (x : option Q) : (or_else x 0 == default 0 x)%Q.
Proof.
  destruct x as [q|]; simpl; [|reflexivity].
  unfold truthy. destruct (Qeq_bool q 0) eqn:E; simpl; [|reflexivity].
  apply Qeq_bool_iff in E. by rewrite E.
Qed.

Lemma or_else_nonzero (w d : Q) : ¬ (w == 0)%Q → or_else (Some w) d = w.
Proof.
  intros Hw. unfold or_else, truthy.
  destruct (Qeq_bool w 0) eqn:E; [|done]. by apply Qeq_bool_iff in E.
Qed.

Lemma max2_spec acc x :
  is_NaN (max2 acc x) = false →
  geb (max2 acc x) acc = true ∧ geb (max2 acc x) x = true ∧
  (max2 acc x = acc ∨ max2 acc x = x).
Proof.
  unfold max2.
  destruct acc as [a| | |], x as [b| | |]; simpl; try done;
    try (intros _; repeat split; try done; try (by left); try (by right);
         apply Qle_bool_iff, Qle_refl).
  destruct (Qltb a b) eqn:E; intros _.
  - apply Qltb_lt in E. split; [by apply Qle_bool_iff, Qlt_le_weak|].
    split; [apply Qle_bool_iff, Qle_refl|by right].
  - apply Qltb_ge in E. split; [apply Qle_bool_iff, Qle_refl|].
    split; [by apply Qle_bool_iff|by left].
Qed.

Lemma max2_NaN_l x : max2 NaN x = NaN.
Proof. by destruct x. Qed.

Lemma fold_max2_NaN l : fold_left max2 l NaN = NaN.
Proof. induction l as [|x l IH]; [done|]. cbn [fold_left]. by rewrite max2_NaN_l. Qed.

Lemma fold_max2_spec l acc :
  is_NaN (fold_left max2 l acc) = false →
  geb (fold_left max2 l acc) acc = true ∧
  (∀ x, x ∈ l → geb (fold_left max2 l acc) x = true) ∧
  (fold_left max2 l acc = acc ∨ fold_left max2 l acc ∈ l).
Proof.
  revert acc. induction l as [|y l IH]; intros acc Hnan; simpl in *.
  - split; [by apply geb_refl|]. split; [|by left].
    intros x Hx. by apply elem_of_nil in Hx.
  - assert (Hstep : is_NaN (max2 acc y) = false).
    { destruct (max2 acc y) eqn:E; try done. by rewrite fold_max2_NaN in Hnan. }
    destruct (IH _ Hnan) as (Hacc & Hall & Hin).
    destruct (max2_spec acc y Hstep) as (H1 & H2 & H3).
    split; [by eapply geb_trans|]. split.
    + intros x [->|Hx]%elem_of_cons; [by eapply geb_trans|by apply Hall].
    + destruct Hin as [Hin|Hin]; [|right; by apply elem_of_cons; right].
      rewrite Hin. destruct H3 as [->| ->]; [by left|]. right. by apply elem_of_cons; left.
Qed.

(** [Math.max] of a non-empty list without [NaN] is its greatest element. *)
Lemma Math_max_greatest l :
  l ≠ [] → is_NaN (Math_max l) = false →
  Math_max l ∈ l ∧ ∀ x, x ∈ l → geb (Math_max l) x = true.
Proof.
  unfold Math_max. intros Hne Hnan.
  destruct (fold_max2_spec l NegInf Hnan) as (_ & Hall & Hin). split; [|done].
  destruct Hin as [Hin|Hin]; [|done].
  destruct l as [|x l]; [done|].
  specialize (Hall x ltac:(by apply elem_of_cons; left)). rewrite Hin in Hall.
  destruct x; simpl in Hall; try done.
  rewrite Hin. by apply elem_of_cons; left.
Qed.

Lemma max2_not_NaN acc x :
  is_NaN acc = false → is_NaN x = false → is_NaN (max2 acc x) = false.
Proof.
  destruct acc, x; simpl; try done; intros _ _; by destruct (Qltb _ _).
Qed.

Lemma fold_max2_not_NaN l acc :
  is_NaN acc = false → (∀ x, x ∈ l → is_NaN x = false) →
  is_NaN (fold_left max2 l acc) = false.
Proof.
  revert acc. induction l as [|y l IH]; intros acc Hacc Hl; simpl; [done|].
  apply IH.
  - apply max2_not_NaN; [done|]. apply Hl. by apply elem_of_cons; left.
  - intros x Hx. apply Hl. by apply elem_of_cons; right.
Qed.

Lemma geb_not_NaN x y : geb x y = true → is_NaN x = false ∧ is_NaN y = false.
Proof. by destruct x, y. Qed.

(** [Math.max(...l) >= t] says that [l] has a greatest element and that
    this element is at least [t]; a [NaN] in [l] leaves it without one. *)
Lemma Math_max_geb l t :
  l ≠ [] →
  geb (Math_max l) t = true ↔
  ∃ m, m ∈ l ∧ (∀ x, x ∈ l → geb m x = true) ∧ geb m t = true.
Proof.
  intros Hne. split.
  - intros Hge. destruct (geb_not_NaN _ _ Hge) as [Hnan _].
    destruct (Math_max_greatest l Hne Hnan) as [Hin Hall].
    by exists (Math_max l).
  - intros (m & Hm & Hall & Hge).
    assert (Hnan : is_NaN (Math_max l) = false).
    { apply fold_max2_not_NaN; [done|]. intros x Hx.
      by destruct (geb_not_NaN _ _ (Hall x Hx)). }
    destruct (fold_max2_spec l NegInf Hnan) as (_ & Hgreater & _).
    eapply geb_trans; [by apply Hgreater|done].
Qed.

(** ** Lists *)

Lemma filter_lookup {A} (f : A → bool) (l : list A) k x :
  List.filter f l !! k = Some x →
  ∃ m, l !! m = Some x ∧ f x = true ∧
       ∀ j y, j < m → l !! j = Some y → f y = true →
              ∃ j', j' < k ∧ List.filter f l !! j' = Some y.
Proof.
  revert k. induction l as [|a l IH]; intros k; simpl; [done|].
  destruct (f a) eqn:Hfa.
  - destruct k as [|k]; simpl.
    + intros [= <-]. exists 0. split; [done|]. split; [done|]. intros j y Hj. lia.
    + intros Hk. destruct (IH k Hk) as (m & Hm & Hfx & Hbefore).
      exists (S m). split; [done|]. split; [done|].
      intros [|j] y Hj Hy Hfy; simpl in Hy.
      * injection Hy as <-. exists 0. split; [lia|done].
      * destruct (Hbefore j y ltac:(lia) Hy Hfy) as (j' & Hj' & Hy').
        exists (S j'). split; [lia|done].
  - intros Hk. destruct (IH k Hk) as (m & Hm & Hfx & Hbefore).
    exists (S m). split; [done|]. split; [done|].
    intros [|j] y Hj Hy Hfy; simpl in Hy.
    + injection Hy as <-. congruence.
    + by apply (Hbefore j y ltac:(lia)).
Qed.

Lemma filter_lookup_2 {A} (f : A → bool) (l : list A) j y :
  l !! j = Some y → f y = true → ∃ j', List.filter f l !! j' = Some y.
Proof.
  intros Hy Hfy. apply list_elem_of_lookup, list_elem_of_In, filter_In.
  split; [|done]. apply list_elem_of_In, list_elem_of_lookup. by exists j.
Qed.

(** ** What a call did, read off its outcome *)

Lemma startEvolution_cases input now e :
  (∃ err, startEvolution input now e = (Failed err, e) ∧
     match err with
     | ProblemStatementRequired =>
         StartInput.problemStatement input = None ∨
         StartInput.problemStatement input = Some ""
     | ConsistencyChecksRequired => StartInput.consistencyChecks input = None
     | TypeError =>
         ∃ checks, StartInput.consistencyChecks input = Some checks ∧
                   mapChecks 0 checks = None
     | _ => False
     end) ∨
  (∃ problem checks cs,
     StartInput.problemStatement input = Some problem ∧ problem ≠ "" ∧
     StartInput.consistencyChecks input = Some checks ∧
     mapChecks 0 checks = Some cs ∧
     let st := startedState input now problem cs in
     startEvolution input now e =
       (Ok (Started problem cs 0 (maxGenerations st) (populationSize st)),
        mkEngine [] (Some st))).
Proof.
  unfold startEvolution, bind, requireString, replaceSession, orTypeError, ret, throw.
  destruct (StartInput.problemStatement input) as [problem|];
    [|left; exists ProblemStatementRequired; by split; [|left]].
  case_bool_decide as Hp;
    [subst; left; exists ProblemStatementRequired; by split; [|right]|].
  destruct (StartInput.consistencyChecks input) as [checks|];
    [|left; by exists ConsistencyChecksRequired].
  destruct (mapChecks 0 checks) as [cs|] eqn:Hcs.
  - right. by exists problem, checks, cs.
  - left. exists TypeError. split; [done|]. by exists checks.
Qed.

Lemma addSolution_cases input newId now e :
  (∃ err, addSolution input newId now e = (Failed err, e)) ∨
  (∃ st content,
     evolutionState e = Some st ∧
     AddInput.content input = Some content ∧ content ≠ "" ∧
     let bucket :=
       default [] (generationHistory st !! currentGeneration st) ++ [newId] in
     addSolution input newId now e =
       (Ok (Added newId (currentGeneration st) (length bucket) (populationSize st)),
        mkEngine (store e ++ [addedSolution input newId now st content])
          (Some (with_solution st (<[newId := length (store e)]> (solutions st))
                   (<[currentGeneration st := bucket]> (generationHistory st)))))).
Proof.
  unfold addSolution, bind, getState, setState, requireString, alloc, ret, throw.
  destruct (evolutionState e) as [st|] eqn:Hst; [|left; by eexists].
  destruct (AddInput.content input) as [content|]; [|left; by eexists].
  case_bool_decide as Hc; [left; by eexists|].
  right. exists st, content. by rewrite Hst.
Qed.

Lemma getEvolutionStatus_unchanged now e : snd (getEvolutionStatus now e) = e.
Proof.
  unfold getEvolutionStatus.
  destruct (evolutionState e) as [st|]; [|done].
  by destruct (resolve e st _).
Qed.

Lemma scoreSolution_Ok input e r e' :
  scoreSolution input e = (Ok r, e') →
  ∃ st solutionId checkId score a c s,
    evolutionState e = Some st ∧
    ScoreInput.solutionId input = Some solutionId ∧ solutionId ≠ "" ∧
    ScoreInput.checkId input = Some checkId ∧ checkId ≠ "" ∧
    ScoreInput.score input = Some score ∧
    (0 <= score <= 1)%Q ∧
    solutions st !! solutionId = Some a ∧
    findCheck (consistencyChecks st) checkId = Some c ∧
    store e !! a = Some s ∧
    let s' := rescored st s checkId score in
    let store' := <[a := s']> (store e) in
    ∃ best',
      e' = mkEngine store' (Some (with_bestSolution st (Some best'))) ∧
      match bestSolution st with
      | None => best' = a
      | Some b =>
          ∃ bs, store' !! b = Some bs ∧
            best' = if gtb (Solution.compositeScore s') (Solution.compositeScore bs)
                    then a else b
      end ∧
      r = Scored (Solution.id s) checkId score (Solution.compositeScore s')
            (size (Solution.scores s')) (length (consistencyChecks st))
            (size (Solution.scores s') =? length (consistencyChecks st))%nat.
Proof.
  unfold scoreSolution. intros H. run_op H.
  destruct (evolutionState e) as [st|] eqn:Hst; [|done].
  destruct (ScoreInput.solutionId input) as [sid|] eqn:Hsid; [|done].
  case_bool_decide as Hne1; [done|]. simpl in H.
  destruct (ScoreInput.checkId input) as [cid|] eqn:Hcid; [|done].
  case_bool_decide as Hne2; [done|]. simpl in H.
  destruct (ScoreInput.score input) as [q|] eqn:Hq; [|done].
  destruct (Qltb q 0 || Qltb 1 q) eqn:Hrange; [done|]. simpl in H.
  apply orb_false_iff in Hrange as [Hlo%Qltb_ge Hhi%Qltb_ge].
  destruct (solutions st !! sid) as [a|] eqn:Ha; [|done]. simpl in H.
  destruct (findCheck (consistencyChecks st) cid) as [c|] eqn:Hc; [|done]. simpl in H.
  destruct (store e !! a) as [s|] eqn:Hs; [|done]. simpl in H.
  exists st, sid, cid, q, a, c, s. do 10 (split; [done|]).
  cbn zeta. unfold rescored. simpl. rewrite list_insert_insert_eq in H.
  destruct (bestSolution st) as [b|] eqn:Hb.
  - match type of H with context [?l !! b] => destruct (l !! b) as [bs|] eqn:Hbs end; [|done].
    simpl in H.
    match type of H with context [gtb ?x ?y] => destruct (gtb x y) eqn:Hgt end;
      simpl in H; inversion H; subst.
    + exists a. split; [done|]. split; [|done]. exists bs. by rewrite Hgt.
    + exists b. split. { f_equal. f_equal. destruct st; simpl in *; by subst. }
      split; [|done]. exists bs. by rewrite Hgt.
  - simpl in H. inversion H; subst. by exists a.
Qed.

(** The converse: a call that passes every test runs to the end. *)
Lemma scoreSolution_run input e st solutionId checkId score a c s best' :
  evolutionState e = Some st →
  ScoreInput.solutionId input = Some solutionId → solutionId ≠ "" →
  ScoreInput.checkId input = Some checkId → checkId ≠ "" →
  ScoreInput.score input = Some score →
  (0 <= score <= 1)%Q →
  solutions st !! solutionId = Some a →
  findCheck (consistencyChecks st) checkId = Some c →
  store e !! a = Some s →
  let s' := rescored st s checkId score in
  let store' := <[a := s']> (store e) in
  match bestSolution st with
  | None => best' = a
  | Some b =>
      ∃ bs, store' !! b = Some bs ∧
        best' = if gtb (Solution.compositeScore s') (Solution.compositeScore bs)
                then a else b
  end →
  scoreSolution input e =
    (Ok (Scored (Solution.id s) checkId score (Solution.compositeScore s')
           (size (Solution.scores s')) (length (consistencyChecks st))
           (size (Solution.scores s') =? length (consistencyChecks st))%nat),
     mkEngine store' (Some (with_bestSolution st (Some best')))).
Proof.
  intros Hst Hsid Hne1 Hcid Hne2 Hq [Hlo Hhi] Ha Hc Hs s' store' Hbest.
  unfold scoreSolution, bind, getState, setState, requireString, ret, throw, deref, assign.
  rewrite Hst, Hsid. rewrite bool_decide_eq_false_2 by done.
  rewrite Hcid. rewrite bool_decide_eq_false_2 by done.
  rewrite Hq.
  apply Qltb_ge in Hlo, Hhi. rewrite Hlo, Hhi. simpl.
  rewrite Ha, Hc, Hs. simpl. rewrite list_insert_insert_eq.
  subst s' store'. unfold rescored, with_compositeScore, with_scores in *.
  simpl in Hbest |- *.
  destruct (bestSolution st) as [b|] eqn:Hb; simpl.
  - destruct Hbest as (bs & Hbs & ->). rewrite Hbs. simpl.
    destruct (gtb _ _); simpl; [done|].
    do 2 f_equal. f_equal. destruct st; simpl in *; by subst.
  - subst best'. done.
Qed.

Lemma evolveGeneration_Ok now e r e' :
  evolveGeneration now e = (Ok r, e') →
  ∃ st ids sols recs,
    evolutionState e = Some st ∧
    generationHistory st !! currentGeneration st = Some ids ∧
    ids ≠ [] ∧
    resolve e st ids = Some sols ∧
    let fullyScored := List.filter (isFullyScored st) sols in
    fullyScored ≠ [] ∧
    recommendations st fullyScored = Some recs ∧
    if hasConverged st fullyScored || maxGenerationsReached st then
      e' = mkEngine (store e) (Some (with_isComplete st true)) ∧
      r = Complete (if hasConverged st fullyScored then convergence else max_generations)
            (currentGeneration st) (bestSolution st ≫= fun b => store e !! b)
            (bestOf fullyScored) (averageOf fullyScored) (now - startTime st)
    else
      e' = mkEngine (store e) (Some (with_currentGeneration st (currentGeneration st + 1))) ∧
      ∃ focusAreas,
        mapM focusArea recs = Some focusAreas ∧
        r = Evolved (currentGeneration st + 1) (averageOf fullyScored) (bestOf fullyScored)
              (length fullyScored) recs (populationSize st) focusAreas.
Proof.
  unfold evolveGeneration, solutionsOf, snapshotBest, bind, getState, setState,
    orTypeError, ret, throw.
  intros H.
  destruct (evolutionState e) as [st|] eqn:Hst; [|discriminate H].
  destruct (generationHistory st !! currentGeneration st) as [ids|] eqn:Hids;
    reduce_in H; [|discriminate H].
  destruct ids as [|i ids]; reduce_in H; [discriminate H|].
  destruct (resolve e st (i :: ids)) as [sols|] eqn:Hsols;
    reduce_in H; [|discriminate H].
  destruct (List.filter (isFullyScored st) sols) as [|s0 fs] eqn:Hfs;
    reduce_in H; [discriminate H|].
  destruct (recommendations st (s0 :: fs)) as [recs|] eqn:Hrecs;
    reduce_in H; [|discriminate H].
  exists st, (i :: ids), sols, recs. rewrite Hfs.
  repeat (split; [done|]).
  destruct (hasConverged st (s0 :: fs) || maxGenerationsReached st); reduce_in H.
  - by inversion H.
  - destruct (mapM focusArea recs) as [focus|] eqn:Hfocus; reduce_in H; [|discriminate H].
    inversion H. split; [done|]. by exists focus.
Qed.

(** ** scoreSolution: the composite score *)



Lemma overflow_Fin_inv q r : overflow q = Fin r → r = q ∧ (q < overflow_threshold)%Q.
Proof.
  unfold overflow.
  destruct (Qle_bool overflow_threshold q) eqn:E1; [done|].
  destruct (Qle_bool q (- overflow_threshold)); [done|].
  intros [= <-]. split; [done|].
  apply Qnot_le_lt. intros Hle%Qle_bool_iff. congruence.
Qed.


Section WeightedMean.

Variable checks : list ConsistencyCheck.t.

Hypothesis weights_nonneg :
  Forall (fun c => (0 <= ConsistencyCheck.weight c)%Q) checks.











End WeightedMean.




(** ** scoreSolution: idempotence and frame *)

Lemma rescored_again st1 st2 s checkId score :
  consistencyChecks st1 = consistencyChecks st2 →
  rescored st1 (rescored st2 s checkId score) checkId score = rescored st2 s checkId score.
Proof.
  intros Hchecks. unfold rescored, with_compositeScore, with_scores. simpl.
  rewrite insert_insert_eq, Hchecks. f_equal.
Qed.

(** C9. A successful [scoreSolution] call repeated with the same arguments
    succeeds again with the same reply and leaves the engine, hence the
    solution's [scores] and [compositeScore], as the first call left it. *)
Theorem scoreSolution_idempotent input e r e1 :
  scoreSolution input e = (Ok r, e1) →
  scoreSolution input e1 = (Ok r, e1).
Proof.
  intros H.
  destruct (scoreSolution_Ok _ _ _ _ H)
    as (st & sid & cid & q & a & c & s & Hst & Hsid & Hne1 & Hcid & Hne2 & Hq & Hrange
        & Ha & Hc & Hs & best' & -> & Hbest & ->).
  set (s' := rescored st s cid q) in *.
  assert (Hlt : a < length (store e)) by (by eapply lookup_lt_Some).
  assert (Hs' : <[a := s']> (store e) !! a = Some s') by (by apply list_lookup_insert_eq).
  assert (Hagain : rescored (with_bestSolution st (Some best')) s' cid q = s')
    by (by apply rescored_again).
  assert (Hb' : ∃ bs, <[a := s']> (store e) !! best' = Some bs ∧
                 gtb (Solution.compositeScore s') (Solution.compositeScore bs) = false).
  { destruct (bestSolution st) as [b|].
    - destruct Hbest as (bs & Hbs & ->).
      destruct (gtb _ (Solution.compositeScore bs)) eqn:Hgt.
      + exists s'. split; [done|]. apply gtb_irrefl.
      + by exists bs.
    - subst best'. exists s'. split; [done|]. apply gtb_irrefl. }
  destruct Hb' as (bs & Hbs & Hgt).
  rewrite (scoreSolution_run input _ (with_bestSolution st (Some best')) sid cid q a c s' best');
    try done.
  - cbn [store]. rewrite Hagain, list_insert_insert_eq. done.
  - cbn [store bestSolution with_bestSolution]. rewrite Hagain, list_insert_insert_eq.
    exists bs. by rewrite Hgt.
Qed.

Lemma scoreSolution_idempotent_witness :
  ∃ r e1,
    scoreSolution (demo_score "s1" "check_1" (3 # 4)) demo = (Ok r, e1) ∧
    scoreSolution (demo_score "s1" "check_1" (3 # 4)) e1 = (Ok r, e1).
Proof.
  eexists _, _. split; [vm_compute; reflexivity|].
  apply (scoreSolution_idempotent (demo_score "s1" "check_1" (3 # 4)) demo).
  vm_compute; reflexivity.
Defined.

(** C10. A successful [scoreSolution] call changes nothing but the entry
    [scores[checkId]] and the [compositeScore] of the scored solution and
    the [bestSolution] reference: every other field of the session, every
    other solution object and the other fields and score entries of the
    scored solution are as before. *)
Theorem scoreSolution_frame input e r e' :
  scoreSolution input e = (Ok r, e') →
  ∃ st st' solutionId checkId a s s',
    evolutionState e = Some st ∧ evolutionState e' = Some st' ∧
    ScoreInput.solutionId input = Some solutionId ∧
    ScoreInput.checkId input = Some checkId ∧
    solutions st !! solutionId = Some a ∧
    store e !! a = Some s ∧ store e' !! a = Some s' ∧
    (* the session, bestSolution apart *)
    problemStatement st' = problemStatement st ∧
    consistencyChecks st' = consistencyChecks st ∧
    currentGeneration st' = currentGeneration st ∧
    maxGenerations st' = maxGenerations st ∧
    populationSize st' = populationSize st ∧
    convergenceThreshold st' = convergenceThreshold st ∧
    solutions st' = solutions st ∧
    generationHistory st' = generationHistory st ∧
    isComplete st' = isComplete st ∧
    startTime st' = startTime st ∧
    (* every other solution *)
    length (store e') = length (store e) ∧
    (∀ a', a' ≠ a → store e' !! a' = store e !! a') ∧
    (* the scored solution, scores[checkId] and compositeScore apart *)
    Solution.id s' = Solution.id s ∧
    Solution.content s' = Solution.content s ∧
    Solution.generation s' = Solution.generation s ∧
    Solution.parentSolutions s' = Solution.parentSolutions s ∧
    Solution.timestamp s' = Solution.timestamp s ∧
    (∀ k, k ≠ checkId → Solution.scores s' !! k = Solution.scores s !! k).
Proof.
  intros H.
  destruct (scoreSolution_Ok _ _ _ _ H)
    as (st & sid & cid & q & a & c & s & Hst & Hsid & Hne1 & Hcid & Hne2 & Hq & Hrange
        & Ha & Hc & Hs & best' & -> & Hbest & ->).
  assert (Hlt : a < length (store e)) by (by eapply lookup_lt_Some).
  exists st, (with_bestSolution st (Some best')), sid, cid, a, s, (rescored st s cid q).
  simpl. do 6 (split; [done|]).
  split. { by apply list_lookup_insert_eq. }
  do 10 (split; [done|]).
  split. { apply length_insert. }
  split. { intros a' Hne. by apply list_lookup_insert_ne. }
  do 5 (split; [done|]).
  intros k Hk. by apply lookup_insert_ne.
Qed.

Lemma scoreSolution_frame_witness :
  ∃ r e',
    scoreSolution (demo_score "s2" "check_2" 1) demo = (Ok r, e') ∧
    ∃ st st' a,
      evolutionState demo = Some st ∧ evolutionState e' = Some st' ∧
      solutions st !! "s2" = Some a ∧
      generationHistory st' = generationHistory st ∧
      ∀ a', a' ≠ a → store e' !! a' = store demo !! a'.
Proof.
  eexists _, _. split; [vm_compute; reflexivity|].
  destruct (scoreSolution_frame (demo_score "s2" "check_2" 1) demo _ _
              ltac:(vm_compute; reflexivity))
    as (st & st' & sid & cid & a & s & s' & Hst & Hst' & Hsid & _ & Ha & _ & _ & _ & _ & _
        & _ & _ & _ & _ & Hh & _ & _ & _ & Hother & _).
  injection Hsid as <-. exists st, st', a.
  exact (conj Hst (conj Hst' (conj Ha (conj Hh Hother)))).
Defined.

(** ** scoreSolution: the best solution *)

Lemma bestCompositeScore_Some e st b s :
  evolutionState e = Some st → bestSolution st = Some b → store e !! b = Some s →
  bestCompositeScore e = Some (Solution.compositeScore s).
Proof.
  intros Hst Hb Hs. unfold bestCompositeScore.
  rewrite Hst. simpl. rewrite Hb. simpl. by rewrite Hs.
Qed.

Lemma bestCompositeScore_inv e st b before :
  evolutionState e = Some st → bestSolution st = Some b →
  bestCompositeScore e = Some before →
  ∃ s, store e !! b = Some s ∧ Solution.compositeScore s = before.
Proof.
  intros Hst Hb. unfold bestCompositeScore.
  rewrite Hst. simpl. rewrite Hb. simpl.
  destruct (store e !! b) as [s|]; simpl; [|done].
  intros [= <-]. by exists s.
Qed.

(** C1, as the code has it.  [bestSolution] is a reference to the solution
    object itself, so a call that scores that very solution changes
    [bestSolution.compositeScore] to the new composite score.  After a
    successful [scoreSolution] call that does not lower the composite score
    of the solution [bestSolution] referenced before it,
    [bestSolution.compositeScore] is greater than or equal to its value
    before the call, that value being a number. *)
Theorem best_score_monotone_unless_best_lowered
    input e r e' st solutionId a b before c :
  evolutionState e = Some st →
  scoreSolution input e = (Ok r, e') →
  ScoreInput.solutionId input = Some solutionId →
  solutions st !! solutionId = Some a →
  bestSolution st = Some b →
  bestCompositeScore e = Some before →
  is_NaN before = false →
  compositeScoreOf r = Some c →
  (a = b → geb c before = true) →
  ∃ after, bestCompositeScore e' = Some after ∧ geb after before = true.
Proof.
  intros Hst H Hsid Ha Hb Hbefore Hnan Hc Hsame.
  destruct (scoreSolution_Ok _ _ _ _ H)
    as (st0 & sid & cid & score & a0 & c0 & s0 & Hst0 & Hsid0 & _ & Hcid & _ & Hq & Hrange
        & Ha0 & Hc0 & Hs0 & best' & -> & Hbest & ->).
  simplify_eq.
  assert (Hlt : a < length (store e)) by (by eapply lookup_lt_Some).
  destruct (bestCompositeScore_inv _ _ _ _ Hst Hb Hbefore) as (bs0 & Hbs0 & <-).
  rewrite Hb in Hbest. destruct Hbest as (bs & Hbs & ->).
  simpl in Hc. injection Hc as <-.
  destruct (decide (a = b)) as [->|Hne].
  - rewrite list_lookup_insert_eq in Hbs by done. injection Hbs as <-.
    rewrite gtb_irrefl. eexists. split.
    + eapply bestCompositeScore_Some; [done..|]. by apply list_lookup_insert_eq.
    + by apply Hsame.
  - rewrite list_lookup_insert_ne in Hbs by done.
    pose proof (eq_trans (eq_sym Hbs0) Hbs) as Ebs. injection Ebs as <-.
    destruct (gtb _ (Solution.compositeScore bs0)) eqn:Hgt.
    + eexists. split.
      * eapply bestCompositeScore_Some; [done..|]. by apply list_lookup_insert_eq.
      * by apply gtb_geb.
    + exists (Solution.compositeScore bs0). split.
      * eapply bestCompositeScore_Some; [done..|]. cbn [store].
        by rewrite list_lookup_insert_ne.
      * by apply geb_refl.
Qed.

Lemma best_score_monotone_unless_best_lowered_witness :
  ∃ r e' st before c,
    evolutionState demo = Some st ∧
    scoreSolution (demo_score "s2" "check_2" 1) demo = (Ok r, e') ∧
    solutions st !! "s2" = bestSolution st ∧
    bestCompositeScore demo = Some before ∧
    compositeScoreOf r = Some c ∧
    geb c before = true ∧
    ∃ after, bestCompositeScore e' = Some after ∧ geb after before = true.
Proof.
  eexists _, _, _, _, _.
  split; [vm_compute; reflexivity|]. split; [vm_compute; reflexivity|].
  split; [vm_compute; reflexivity|]. split; [vm_compute; reflexivity|].
  split; [vm_compute; reflexivity|]. split; [vm_compute; reflexivity|].
  eapply (best_score_monotone_unless_best_lowered (demo_score "s2" "check_2" 1) demo).
  - vm_compute; reflexivity.
  - vm_compute; reflexivity.
  - reflexivity.
  - vm_compute; reflexivity.
  - vm_compute; reflexivity.
  - vm_compute; reflexivity.
  - reflexivity.
  - vm_compute; reflexivity.
  - intros _. vm_compute; reflexivity.
Defined.

(** C1, as the specification words it, fails: scoring the best solution
    again with a lower score lowers [bestSolution.compositeScore], from 1 to
    1/2 in a session with a single check. *)
Lemma best_score_can_drop : ¬ best_score_monotone.
Proof.
  intros Hmono.
  pose (calls :=
    [ CallStart (StartInput.mk (Some "p") (Some [CheckString "c"]) None None None) 0;
      CallAdd (AddInput.mk (Some "x") None) "s1" 1;
      CallScore (demo_score "s1" "check_1" 1) ]).
  pose (input := demo_score "s1" "check_1" (1 # 2)).
  assert (∃ r e' before after,
            scoreSolution input (run calls initial) = (Ok r, e') ∧
            bestCompositeScore (run calls initial) = Some before ∧
            bestCompositeScore e' = Some after ∧
            geb after before = false) as (r & e' & before & after & E1 & E2 & E3 & E4).
  { do 4 eexists. split; [vm_compute; reflexivity|].
    split; [vm_compute; reflexivity|]. split; vm_compute; reflexivity. }
  specialize (Hmono calls input r e' before after E1 E2 E3). congruence.
Qed.

(** ** evolveGeneration: crossover recommendations *)

Lemma fold_better_first check (l : list Solution.t) (x : Solution.t) :
  ∃ k,
    (x :: l) !! k = Some (fold_left (better check) l x) ∧
    (∀ j s, (x :: l) !! j = Some s →
       (scoreOf s check <= scoreOf (fold_left (better check) l x) check)%Q) ∧
    (∀ j s, j < k → (x :: l) !! j = Some s →
       (scoreOf s check < scoreOf (fold_left (better check) l x) check)%Q).
Proof.
  induction l as [|y l IH] using rev_ind.
  - exists 0. simpl. split; [done|]. split.
    + intros [|j] s Hs; simpl in Hs; [|done]. injection Hs as <-. apply Qle_refl.
    + intros j s Hj. lia.
  - destruct IH as (k & Hk & Hmax & Hfirst).
    rewrite fold_left_app. simpl.
    set (p := fold_left (better check) l x) in *.
    assert (Hlen : k < length (x :: l)) by (by eapply lookup_lt_Some).
    destruct (Qltb (scoreOf p check) (scoreOf y check)) eqn:Hcmp.
    + assert (Hres : better check p y = y) by (unfold better; by rewrite Hcmp).
      rewrite Hres. apply Qltb_lt in Hcmp.
      exists (length (x :: l)). split.
      { change (x :: l ++ [y]) with ((x :: l) ++ [y]).
        rewrite lookup_app_r; [|lia]. by rewrite Nat.sub_diag. }
      split.
      * intros j s Hs. change (x :: l ++ [y]) with ((x :: l) ++ [y]) in Hs.
        apply lookup_app_Some in Hs as [Hs|[_ Hs]].
        -- apply Qlt_le_weak. eapply Qle_lt_trans; [by eapply Hmax|done].
        -- destruct (j - length (x :: l)) as [|n]; simpl in Hs; [|done].
           injection Hs as <-. apply Qle_refl.
      * intros j s Hj Hs. change (x :: l ++ [y]) with ((x :: l) ++ [y]) in Hs.
        rewrite lookup_app_l in Hs; [|done].
        eapply Qle_lt_trans; [by eapply Hmax|done].
    + assert (Hres : better check p y = p) by (unfold better; by rewrite Hcmp).
      rewrite Hres. apply Qltb_ge in Hcmp.
      exists k. split.
      { change (x :: l ++ [y]) with ((x :: l) ++ [y]). by rewrite lookup_app_l. }
      split.
      * intros j s Hs. change (x :: l ++ [y]) with ((x :: l) ++ [y]) in Hs.
        apply lookup_app_Some in Hs as [Hs|[_ Hs]]; [by eapply Hmax|].
        destruct (j - length (x :: l)) as [|n]; simpl in Hs; [|done].
        by injection Hs as <-.
      * intros j s Hj Hs. change (x :: l ++ [y]) with ((x :: l) ++ [y]) in Hs.
        rewrite lookup_app_l in Hs; [|lia]. by eapply Hfirst.
Qed.

(** The solution [reduce] returns is the first one whose score on the check
    is the greatest. *)
Lemma bestForCheck_first check fullyScored best :
  bestForCheck check fullyScored = Some best →
  ∃ k,
    fullyScored !! k = Some best ∧
    (∀ j s, fullyScored !! j = Some s → (scoreOf s check <= scoreOf best check)%Q) ∧
    (∀ j s, j < k → fullyScored !! j = Some s → (scoreOf s check < scoreOf best check)%Q).
Proof.
  destruct fullyScored as [|x l]; [done|].
  unfold bestForCheck, reduce1. intros [= <-]. apply fold_better_first.
Qed.

Lemma recommend_Some fullyScored check rec :
  recommend fullyScored check = Some rec →
  ∃ best d,
    bestForCheck check fullyScored = Some best ∧
    ConsistencyCheck.description check = Some d ∧
    rec = CrossoverRecommendation.mk (ConsistencyCheck.id check) (Solution.id best)
            (Solution.scores best !! ConsistencyCheck.id check)
            (Excerpt.extractRelevantContent (Solution.content best) d).
Proof.
  unfold recommend. intros H.
  destruct (bestForCheck check fullyScored) as [best|]; [|done]. simpl in H.
  destruct (ConsistencyCheck.description check) as [d|]; [|done]. simpl in H.
  exists best, d. by injection H as <-.
Qed.

Lemma resolve_lookup e st ids sols k s :
  resolve e st ids = Some sols → sols !! k = Some s →
  ∃ i a, ids !! k = Some i ∧ solutions st !! i = Some a ∧ store e !! a = Some s.
Proof.
  unfold resolve. rewrite mapM_Some. intros HF Hs.
  destruct (Forall2_lookup_r _ _ _ _ _ HF Hs) as (i & Hi & Hf).
  destruct (solutions st !! i) as [a|] eqn:Ha; [|done]. simpl in Hf.
  by exists i, a.
Qed.

Lemma recommendations_Forall2 st fullyScored recs :
  recommendations st fullyScored = Some recs →
  Forall2 (fun check rec => recommend fullyScored check = Some rec)
    (consistencyChecks st) recs.
Proof. unfold recommendations. by rewrite mapM_Some. Qed.

Lemma recommendations_checkIds st fullyScored recs :
  recommendations st fullyScored = Some recs →
  CrossoverRecommendation.checkId <$> recs = checkIds st.
Proof.
  intros HF%recommendations_Forall2. unfold checkIds.
  induction HF as [|check rec checks recs Hrec _ IH]; [done|].
  simpl. f_equal; [|done].
  apply recommend_Some in Hrec as (best & d & _ & _ & ->). done.
Qed.

(** ** startEvolution: validation of the checks *)

(** C6, as the code has it.  A start whose [consistencyChecks] is missing or
    is not an array fails with a validation error that names the offending
    field and leaves the engine, and with it any earlier session, as it
    was: the error names [problemStatement] when that argument is itself
    missing, empty or not a string, and [consistencyChecks] otherwise.  An
    empty array passes: with a valid [problemStatement] the call succeeds
    and replaces the session by one without checks. *)
Theorem startEvolution_checks_validation input now e :
  (StartInput.consistencyChecks input = None →
   (StartInput.problemStatement input = None ∨
    StartInput.problemStatement input = Some "" →
    startEvolution input now e = (Failed ProblemStatementRequired, e) ∧
    message ProblemStatementRequired = "problemStatement is required and must be a string") ∧
   (∀ problem,
      StartInput.problemStatement input = Some problem → problem ≠ "" →
      startEvolution input now e = (Failed ConsistencyChecksRequired, e) ∧
      message ConsistencyChecksRequired
        = "consistencyChecks is required and must be an array")) ∧
  (∀ problem,
     StartInput.problemStatement input = Some problem → problem ≠ "" →
     StartInput.consistencyChecks input = Some [] →
     ∃ r st,
       startEvolution input now e = (Ok r, mkEngine [] (Some st)) ∧
       status r = "started" ∧ consistencyChecks st = []).
Proof.
  split; [intros Hnone; split|].
  - intros Hbad. split; [|done].
    unfold startEvolution, bind, requireString, throw.
    destruct Hbad as [-> | ->]; [done|]. by rewrite bool_decide_eq_true_2.
  - intros problem Hp Hne. split; [|done].
    unfold startEvolution, bind, requireString, ret, throw.
    rewrite Hp, Hnone. by rewrite bool_decide_eq_false_2.
  - intros problem Hp Hne Hempty.
    destruct (startEvolution_cases input now e)
      as [(err & Hf & Herr)|(p & checks & cs & _ & _ & Hsome & Hcs & Hok)].
    + destruct err; try done.
      * destruct Herr; congruence.
      * congruence.
      * destruct Herr as (checks & Hsome & Hcs). rewrite Hempty in Hsome.
        injection Hsome as <-. done.
    + rewrite Hempty in Hsome. injection Hsome as <-. simpl in Hcs.
      injection Hcs as <-. eexists _, _. split; [exact Hok|]. done.
Qed.

Lemma startEvolution_checks_validation_witness :
  startEvolution (StartInput.mk (Some "p") None None None None) 300 demo
    = (Failed ConsistencyChecksRequired, demo) ∧
  startEvolution (StartInput.mk None None None None None) 300 demo
    = (Failed ProblemStatementRequired, demo) ∧
  (∃ r st,
     startEvolution (StartInput.mk (Some "p") (Some []) None None None) 300 demo
       = (Ok r, mkEngine [] (Some st)) ∧
     status r = "started" ∧ consistencyChecks st = []).
Proof.
  split; [|split].
  - apply (startEvolution_checks_validation
             (StartInput.mk (Some "p") None None None None) 300 demo) with "p".
    + reflexivity.
    + reflexivity.
    + discriminate.
  - apply (startEvolution_checks_validation
             (StartInput.mk None None None None None) 300 demo).
    + reflexivity.
    + left. reflexivity.
  - apply (startEvolution_checks_validation
             (StartInput.mk (Some "p") (Some []) None None None) 300 demo) with "p".
    + reflexivity.
    + discriminate.
    + reflexivity.
Defined.

(** C6, as the specification words it, fails: a start with an empty list of
    checks succeeds and replaces the running session. *)
Lemma start_accepts_empty_checks : ¬ start_rejects_bad_checks.
Proof.
  intros Hclaim.
  destruct (Hclaim (StartInput.mk (Some "p") (Some []) None None None) 0%Z demo [])
    as [err Herr]; [done|by left|].
  vm_compute in Herr. discriminate Herr.
Qed.

(** A record without description passes as well; its check has no
    description, and a later [evolveGeneration] throws on it. *)
Example start_accepts_missing_description :
  ∃ r st,
    startEvolution
      (StartInput.mk (Some "p") (Some [CheckRecord None (Some 2%Q)]) None None None)
      0 initial = (Ok r, mkEngine [] (Some st)) ∧
    ConsistencyCheck.description <$> consistencyChecks st = [None].
Proof. eexists _, _. split; vm_compute; reflexivity. Qed.

(** ** startEvolution: weights *)

(** A weight other than zero is stored as given. *)
Lemma normalizeCheck_weight d w index :
  ¬ (w == 0)%Q →
  ConsistencyCheck.weight <$> normalizeCheck (CheckRecord d (Some w)) index = Some w.
Proof. intros Hw. cbn -[or_else]. by rewrite or_else_nonzero. Qed.

(** C7 fails on the weight zero.  The test [check.weight ? check.weight : 1.0]
    takes the number 0 for a missing weight: a check supplied with weight 0
    is stored with weight 1. *)
Theorem zero_weight_replaced_by_default :
  ∃ r st,
    startEvolution
      (StartInput.mk (Some "p") (Some [CheckRecord (Some "d") (Some 0%Q)]) None None None)
      0 initial = (Ok r, mkEngine [] (Some st)) ∧
    ConsistencyCheck.weight <$> consistencyChecks st = [1%Q].
Proof. eexists _, _. split; vm_compute; reflexivity. Qed.

(** ** The engine stays well formed *)

Lemma checkName_inj i j : checkName i = checkName j → i = j.
Proof.
  unfold checkName. intros H.
  apply (inj (String.app "check_")) in H. apply (inj pretty) in H. lia.
Qed.

Lemma mapChecks_ids index checks cs :
  mapChecks index checks = Some cs →
  ConsistencyCheck.id <$> cs = checkName <$> seq index (length checks).
Proof.
  revert index cs. induction checks as [|check checks IH]; intros index cs; simpl.
  - by intros [= <-].
  - destruct (normalizeCheck check index) as [c|] eqn:Hc; [|done].
    destruct (mapChecks (S index) checks) as [cs'|] eqn:Hcs; [|done].
    intros [= <-]. simpl. f_equal; [|by apply IH].
    destruct check; simpl in Hc; by simplify_eq.
Qed.

Lemma mapChecks_NoDup index checks cs :
  mapChecks index checks = Some cs → NoDup (ConsistencyCheck.id <$> cs).
Proof.
  intros ->%mapChecks_ids.
  apply NoDup_fmap_2_strong; [|apply NoDup_seq].
  intros i j _ _. apply checkName_inj.
Qed.

Lemma findCheck_Some checks checkId c :
  findCheck checks checkId = Some c →
  c ∈ checks ∧ ConsistencyCheck.id c = checkId.
Proof.
  unfold findCheck. intros [Hin Hid]%find_some.
  split; [by apply list_elem_of_In|]. by apply bool_decide_eq_true in Hid.
Qed.

(** A fully scored solution has a score for every check. *)
Lemma fully_scored_total e st a s check :
  evolutionState e = Some st →
  well_formed e →
  store e !! a = Some s →
  isFullyScored st s = true →
  check ∈ consistencyChecks st →
  is_Some (Solution.scores s !! ConsistencyCheck.id check).
Proof.
  unfold well_formed. intros Hst Hwf Hs Hfull Hcheck. rewrite Hst in Hwf.
  destruct Hwf as (Hnodup & Hkeys & _).
  apply Nat.eqb_eq in Hfull.
  assert (Hsub : dom (Solution.scores s) ⊆ list_to_set (C := gset string) (checkIds st)).
  { intros k Hk%elem_of_dom. apply elem_of_list_to_set. by eapply Hkeys. }
  assert (Heq : dom (Solution.scores s) = list_to_set (checkIds st)).
  { apply set_subseteq_size_eq; [done|].
    rewrite size_dom, size_list_to_set by done.
    unfold checkIds. rewrite length_fmap. lia. }
  apply elem_of_dom. rewrite Heq. apply elem_of_list_to_set.
  unfold checkIds. by apply list_elem_of_fmap_2.
Qed.

(** So the focus lines of an evolved report can always be printed. *)
Lemma recommendations_scored e st ids sols recs :
  evolutionState e = Some st →
  well_formed e →
  resolve e st ids = Some sols →
  recommendations st (List.filter (isFullyScored st) sols) = Some recs →
  is_Some (mapM focusArea recs).
Proof.
  intros Hst Hwf Hsols Hrecs%recommendations_Forall2.
  apply mapM_is_Some, Forall_forall. intros rec Hrec.
  apply list_elem_of_lookup in Hrec as [n Hn].
  destruct (Forall2_lookup_r _ _ _ _ _ Hrecs Hn) as (check & Hcheck & Hrc).
  apply recommend_Some in Hrc as (best & d & Hbest & _ & ->).
  apply bestForCheck_first in Hbest as (k & Hk & _).
  assert (Hin : In best (List.filter (isFullyScored st) sols)).
  { apply list_elem_of_In, list_elem_of_lookup. by exists k. }
  apply filter_In in Hin as [Hin Hfull].
  apply list_elem_of_In, list_elem_of_lookup in Hin as [m Hm].
  destruct (resolve_lookup _ _ _ _ _ _ Hsols Hm) as (i & a & _ & _ & Hs).
  destruct (fully_scored_total e st a best check) as [q Hq]; try done.
  { apply list_elem_of_lookup. by exists n. }
  unfold focusArea. simpl. rewrite Hq. by eexists.
Qed.

Lemma scoreSolution_Failed input e err e' :
  well_formed e →
  scoreSolution input e = (Failed err, e') → e' = e.
Proof.
  unfold well_formed, scoreSolution, bind, getState, setState, requireString, ret,
    throw, deref, assign.
  intros Hwf H.
  destruct (evolutionState e) as [st|] eqn:Hst; [|by injection H].
  destruct Hwf as (_ & _ & Hbest & _).
  destruct (ScoreInput.solutionId input) as [sid|]; [|by injection H].
  case_bool_decide; [by injection H|].
  destruct (ScoreInput.checkId input) as [cid|]; [|by injection H].
  case_bool_decide; [by injection H|].
  destruct (ScoreInput.score input) as [q|]; [|by injection H].
  destruct (Qltb q 0 || Qltb 1 q); [by injection H|].
  destruct (solutions st !! sid) as [a|]; [|by injection H].
  destruct (findCheck (consistencyChecks st) cid) as [c|]; [|by injection H].
  destruct (store e !! a) as [s|] eqn:Hs; [|by injection H].
  exfalso. cbn beta iota zeta delta [store evolutionState] in H.
  destruct (bestSolution st) as [b|] eqn:Hb; [|discriminate H].
  specialize (Hbest b eq_refl).
  match type of H with context [?l !! b] =>
    destruct (lookup_lt_is_Some_2 l b) as [bs Hbs] end.
  { cbn [store]. by rewrite !length_insert. }
  rewrite Hbs in H. cbn beta iota in H.
  by destruct (gtb _ _).
Qed.

Lemma evolveGeneration_Failed now e err e' :
  well_formed e →
  evolveGeneration now e = (Failed err, e') → e' = e.
Proof.
  unfold evolveGeneration, solutionsOf, snapshotBest, bind, getState, setState,
    orTypeError, ret, throw.
  intros Hwf H.
  destruct (evolutionState e) as [st|] eqn:Hst; [|by injection H].
  destruct (generationHistory st !! currentGeneration st) as [ids|] eqn:Hids;
    reduce_in H; [|by injection H].
  destruct ids as [|i ids]; reduce_in H; [by injection H|].
  destruct (resolve e st (i :: ids)) as [sols|] eqn:Hsols;
    reduce_in H; [|by injection H].
  destruct (List.filter (isFullyScored st) sols) as [|s0 fs] eqn:Hfs;
    reduce_in H; [by injection H|].
  destruct (recommendations st (s0 :: fs)) as [recs|] eqn:Hrecs;
    reduce_in H; [|by injection H].
  destruct (hasConverged st (s0 :: fs) || maxGenerationsReached st);
    reduce_in H; [discriminate H|].
  rewrite <- Hfs in Hrecs.
  destruct (recommendations_scored e st _ sols recs Hst Hwf Hsols Hrecs) as [focus Hfocus].
  rewrite Hfocus in H. discriminate H.
Qed.

Lemma call_Failed c e err e' :
  well_formed e → call c e = (Failed err, e') → e' = e.
Proof.
  intros Hwf H. destruct c as [input now|input newId now|input|now|now]; simpl in H.
  - destruct (startEvolution_cases input now e)
      as [(err' & Hf & _)|(p & checks & cs & _ & _ & _ & _ & Hok)]; congruence.
  - destruct (addSolution_cases input newId now e)
      as [(err' & Hf)|(st & content & _ & _ & _ & Hok)]; congruence.
  - by eapply scoreSolution_Failed.
  - by eapply evolveGeneration_Failed.
  - pose proof (getEvolutionStatus_unchanged now e) as Hs. by rewrite H in Hs.
Qed.

Lemma call_well_formed c e : well_formed e → well_formed (snd (call c e)).
Proof.
  intros Hwf. destruct (call c e) as [[r|err] e'] eqn:Hcall; simpl;
    [|by rewrite (call_Failed _ _ _ _ Hwf Hcall)].
  destruct c as [input now|input newId now|input|now|now]; simpl in Hcall.
  - destruct (startEvolution_cases input now e)
      as [(err' & Hf & _)|(p & checks & cs & _ & _ & _ & Hcs & Hok)]; [congruence|].
    rewrite Hok in Hcall. injection Hcall as <- <-.
    unfold well_formed. simpl. split; [by eapply mapChecks_NoDup|].
    do 2 (split; [done|]). intros i a Hi. by rewrite lookup_empty in Hi.
  - destruct (addSolution_cases input newId now e)
      as [(err' & Hf)|(st & content & Hst & _ & _ & Hok)]; [congruence|].
    rewrite Hok in Hcall. injection Hcall as <- <-.
    unfold well_formed in *. rewrite Hst in Hwf. simpl.
    destruct Hwf as (Hnodup & Hkeys & Hbest & Hids). split; [done|]. split; [|split].
    + intros a s k Hs Hk. apply lookup_app_Some in Hs as [Hs|[_ Hs]]; [by eapply Hkeys|].
      destruct (a - length (store e)) as [|n]; simpl in Hs; [|done].
      injection Hs as <-. simpl in Hk. rewrite lookup_empty in Hk. by destruct Hk.
    + intros b Hb. rewrite length_app. specialize (Hbest b Hb). lia.
    + intros i a Hi. destruct (decide (i = newId)) as [->|Hne].
      * rewrite lookup_insert_eq in Hi. injection Hi as <-.
        exists (addedSolution input newId now st content). split; [|done].
        rewrite lookup_app_r by done. by rewrite Nat.sub_diag.
      * rewrite lookup_insert_ne in Hi by done.
        destruct (Hids i a Hi) as (s & Hs & Hid). exists s. split; [|done].
        by apply lookup_app_l_Some.
  - destruct (scoreSolution_Ok _ _ _ _ Hcall)
      as (st & sid & cid & q & a & c0 & s & Hst & _ & _ & _ & _ & _ & _
          & Ha & Hc & Hs & best' & -> & Hbest' & _).
    unfold well_formed in *. rewrite Hst in Hwf. simpl.
    destruct Hwf as (Hnodup & Hkeys & Hbest & Hids).
    assert (Hlt : a < length (store e)) by (by eapply lookup_lt_Some).
    split; [done|]. split; [|split].
    + intros a' s' k Hs' Hk. destruct (decide (a' = a)) as [->|Hne].
      * rewrite list_lookup_insert_eq in Hs' by done. injection Hs' as <-.
        simpl in Hk. destruct (decide (k = cid)) as [->|Hk'].
        -- apply findCheck_Some in Hc as [Hin <-].
           unfold checkIds. by apply list_elem_of_fmap_2.
        -- rewrite lookup_insert_ne in Hk by done. by eapply Hkeys.
      * rewrite list_lookup_insert_ne in Hs' by done. by eapply Hkeys.
    + intros b [= <-]. rewrite length_insert.
      destruct (bestSolution st) as [b|]; [|by subst].
      destruct Hbest' as (bs & _ & ->). destruct (gtb _ _); [done|]. by apply Hbest.
    + intros i a' Hi. destruct (Hids i a' Hi) as (s' & Hs' & Hid).
      destruct (decide (a' = a)) as [->|Hne].
      * exists (rescored st s cid q). split; [by apply list_lookup_insert_eq|].
        simpl. congruence.
      * exists s'. by rewrite list_lookup_insert_ne.
  - destruct (evolveGeneration_Ok _ _ _ _ Hcall)
      as (st & ids & sols & recs & Hst & _ & _ & _ & _ & _ & Hout).
    unfold well_formed in *. rewrite Hst in Hwf.
    destruct (hasConverged _ _ || maxGenerationsReached st);
      destruct Hout as [-> _]; exact Hwf.
  - pose proof (getEvolutionStatus_unchanged now e) as Hs. rewrite Hcall in Hs.
    simpl in Hs. by subst.
Qed.

Lemma run_well_formed calls e : well_formed e → well_formed (run calls e).
Proof.
  revert e. induction calls as [|c calls IH]; intros e Hwf; [done|].
  simpl. apply IH. by apply call_well_formed.
Qed.

Lemma initial_well_formed : well_formed initial.
Proof. done. Qed.

(** ** The solutions [evolveGeneration] works on *)

Lemma resolve_elem_of e st ids sols s :
  evolutionState e = Some st →
  resolve e st ids = Some sols →
  s ∈ sols ↔ ∃ i, i ∈ ids ∧ solutionAt e i = Some s.
Proof.
  intros Hst Hsols. split.
  - intros [k Hk]%list_elem_of_lookup.
    destruct (resolve_lookup _ _ _ _ _ _ Hsols Hk) as (i & a & Hi & Ha & Hs).
    exists i. split; [apply list_elem_of_lookup; by exists k|].
    unfold solutionAt. rewrite Hst. simpl. by rewrite Ha.
  - intros (i & [k Hk]%list_elem_of_lookup & Hs).
    unfold resolve in Hsols. rewrite mapM_Some in Hsols.
    destruct (Forall2_lookup_l _ _ _ _ _ Hsols Hk) as (s' & Hs' & Hf).
    unfold solutionAt in Hs. rewrite Hst in Hs. simpl in Hs.
    rewrite Hf in Hs. injection Hs as <-.
    apply list_elem_of_lookup. by exists k.
Qed.

Lemma resolve_lookup_2 e st ids sols j i s :
  evolutionState e = Some st →
  resolve e st ids = Some sols →
  ids !! j = Some i → solutionAt e i = Some s → sols !! j = Some s.
Proof.
  intros Hst Hsols Hi Hs.
  unfold resolve in Hsols. rewrite mapM_Some in Hsols.
  destruct (Forall2_lookup_l _ _ _ _ _ Hsols Hi) as (s' & Hs' & Hf).
  unfold solutionAt in Hs. rewrite Hst in Hs. simpl in Hs.
  rewrite Hf in Hs. by injection Hs as <-.
Qed.

(** In a well formed engine the count test of [isFullyScored] says what its
    name says. *)
Lemma isFullyScored_iff e st a s :
  evolutionState e = Some st → well_formed e → store e !! a = Some s →
  isFullyScored st s = true ↔ scored_on_every_check st s.
Proof.
  intros Hst Hwf Hs. split.
  - intros Hfull check Hcheck. by eapply fully_scored_total.
  - intros Hall. unfold well_formed in Hwf. rewrite Hst in Hwf.
    destruct Hwf as (Hnodup & Hkeys & _).
    assert (Heq : dom (Solution.scores s) = list_to_set (C := gset string) (checkIds st)).
    { apply set_eq. intros k. rewrite elem_of_dom, elem_of_list_to_set. split.
      - intros Hk. by eapply Hkeys.
      - unfold checkIds. intros (c & -> & Hc)%list_elem_of_fmap. by apply Hall. }
    unfold isFullyScored. apply Nat.eqb_eq.
    rewrite <- size_dom, Heq, size_list_to_set by done.
    unfold checkIds. by rewrite length_fmap.
Qed.

Lemma solutionAt_store e st i s :
  evolutionState e = Some st → solutionAt e i = Some s →
  ∃ a, solutions st !! i = Some a ∧ store e !! a = Some s.
Proof.
  intros Hst. unfold solutionAt. rewrite Hst. simpl.
  destruct (solutions st !! i) as [a|]; simpl; [|done]. by exists a.
Qed.

(** The list [fullyScored] of [evolveGeneration] holds the fully scored
    solutions of the current generation. *)
Lemma fullyScored_elem_of e st ids sols s :
  evolutionState e = Some st → well_formed e →
  generationHistory st !! currentGeneration st = Some ids →
  resolve e st ids = Some sols →
  s ∈ List.filter (isFullyScored st) sols ↔ fully_scored_now e st s.
Proof.
  intros Hst Hwf Hids Hsols.
  rewrite list_elem_of_In, filter_In, <- list_elem_of_In.
  rewrite (resolve_elem_of e st ids sols s Hst Hsols). split.
  - intros [(i & Hi & Hs) Hfull]. exists ids, i. do 3 (split; [done|]).
    destruct (solutionAt_store _ _ _ _ Hst Hs) as (a & _ & Ha).
    by apply (isFullyScored_iff e st a s).
  - intros (ids' & i & Hids' & Hi & Hs & Hfull).
    rewrite Hids in Hids'. injection Hids' as <-. split; [by exists i|].
    destruct (solutionAt_store _ _ _ _ Hst Hs) as (a & _ & Ha).
    by apply (isFullyScored_iff e st a s).
Qed.

(** The convergence test, on the solutions themselves: some fully scored
    solution of the current generation has a composite score that is the
    greatest among them and reaches the threshold. *)
Lemma hasConverged_iff e st ids sols :
  evolutionState e = Some st → well_formed e →
  generationHistory st !! currentGeneration st = Some ids →
  resolve e st ids = Some sols →
  List.filter (isFullyScored st) sols ≠ [] →
  hasConverged st (List.filter (isFullyScored st) sols) = true ↔
  ∃ m, fully_scored_now e st m ∧
       (∀ s, fully_scored_now e st s →
             geb (Solution.compositeScore m) (Solution.compositeScore s) = true) ∧
       geb (Solution.compositeScore m) (overflow (convergenceThreshold st)) = true.
Proof.
  intros Hst Hwf Hids Hsols Hne.
  pose proof (fullyScored_elem_of e st ids sols) as Hmem.
  unfold hasConverged, bestOf. rewrite Math_max_geb.
  2:{ intros Hnil%fmap_nil_inv. done. }
  split.
  - intros (x & (m & -> & Hm)%list_elem_of_fmap & Hall & Hge).
    exists m. split; [by apply Hmem|]. split; [|done].
    intros s Hs. apply Hall. apply list_elem_of_fmap_2. by apply Hmem.
  - intros (m & Hm & Hall & Hge).
    exists (Solution.compositeScore m). split.
    { apply list_elem_of_fmap_2. by apply Hmem. }
    split; [|done].
    intros x (s & -> & Hs)%list_elem_of_fmap. apply Hall. by apply Hmem.
Qed.

(** ** evolveGeneration: termination *)

(** C2. Whatever calls were made before, a successful [evolveGeneration]
    call tests convergence first and exhaustion second.  Convergence: among
    the fully scored solutions of the current generation one has the
    greatest composite score, and that score is at least
    [convergenceThreshold].  Exhaustion:
    [currentGeneration >= maxGenerations - 1].  On convergence, whether
    or not the generations are exhausted too, the reply is a completion
    report with reason [convergence]; without convergence, on exhaustion,
    it is one with reason [max_generations]; both set [isComplete] and keep
    [currentGeneration].  When neither holds the reply is an evolved report
    and [currentGeneration] grows by exactly one. *)
Theorem evolveGeneration_termination_order calls now r e' st :
  evolutionState (run calls initial) = Some st →
  evolveGeneration now (run calls initial) = (Ok r, e') →
  ∃ st',
    evolutionState e' = Some st' ∧
    let converged :=
      ∃ m, fully_scored_now (run calls initial) st m ∧
           (∀ s, fully_scored_now (run calls initial) st s →
                 geb (Solution.compositeScore m) (Solution.compositeScore s) = true) ∧
           geb (Solution.compositeScore m) (overflow (convergenceThreshold st)) = true in
    let exhausted := (maxGenerations st - 1 <= Qnat (currentGeneration st))%Q in
    (converged →
       status r = "complete" ∧ reasonOf r = Some convergence ∧
       isComplete st' = true ∧ currentGeneration st' = currentGeneration st) ∧
    (¬ converged → exhausted →
       status r = "complete" ∧ reasonOf r = Some max_generations ∧
       isComplete st' = true ∧ currentGeneration st' = currentGeneration st) ∧
    (¬ converged → ¬ exhausted →
       status r = "evolved" ∧ reasonOf r = None ∧
       isComplete st' = isComplete st ∧
       currentGeneration st' = currentGeneration st + 1).
Proof.
  intros Hst H.
  assert (Hwf : well_formed (run calls initial))
    by apply run_well_formed, initial_well_formed.
  destruct (evolveGeneration_Ok _ _ _ _ H)
    as (st0 & ids & sols & recs & Hst0 & Hids & _ & Hsols & Hne & _ & Hout).
  rewrite Hst in Hst0. injection Hst0 as <-.
  pose proof (hasConverged_iff _ st ids sols Hst Hwf Hids Hsols Hne) as Hconv.
  unfold maxGenerationsReached in Hout.
  destruct (hasConverged st _) eqn:Hc.
  - destruct Hout as [-> ->]. exists (with_isComplete st true).
    split; [done|]. cbn zeta.
    assert (Hyes := proj1 Hconv eq_refl).
    split; [done|]. split; intros Hn; by destruct Hn.
  - assert (Hno : ¬ ∃ m, fully_scored_now (run calls initial) st m ∧
             (∀ s, fully_scored_now (run calls initial) st s →
                   geb (Solution.compositeScore m) (Solution.compositeScore s) = true) ∧
             geb (Solution.compositeScore m) (overflow (convergenceThreshold st)) = true).
    { intros Hyes. apply Hconv in Hyes. discriminate Hyes. }
    destruct (Qle_bool (maxGenerations st - 1) (Qnat (currentGeneration st))) eqn:Hmax.
    + destruct Hout as [-> ->]. exists (with_isComplete st true).
      split; [done|]. cbn zeta.
      split; [by intros Hyes|]. split; [done|].
      intros _ Hn. destruct Hn. by apply Qle_bool_iff.
    + destruct Hout as [-> (focus & _ & ->)].
      exists (with_currentGeneration st (currentGeneration st + 1)).
      split; [done|]. cbn zeta.
      split; [by intros Hyes|]. split; [|done].
      intros _ Hle%Qle_bool_iff. congruence.
Qed.

Lemma evolveGeneration_termination_order_witness :
  (∃ r e' st st',
     evolutionState (run converged_calls initial) = Some st ∧
     evolveGeneration 9 (run converged_calls initial) = (Ok r, e') ∧
     evolutionState e' = Some st' ∧
     (maxGenerations st - 1 <= Qnat (currentGeneration st))%Q ∧
     status r = "complete" ∧ reasonOf r = Some convergence ∧
     isComplete st' = true ∧ currentGeneration st' = currentGeneration st) ∧
  (∃ r e' st st',
     evolutionState (run exhausted_calls initial) = Some st ∧
     evolveGeneration 9 (run exhausted_calls initial) = (Ok r, e') ∧
     evolutionState e' = Some st' ∧
     status r = "complete" ∧ reasonOf r = Some max_generations ∧
     isComplete st' = true ∧ currentGeneration st' = currentGeneration st) ∧
  (∃ r e' st st',
     evolutionState (run demo_calls initial) = Some st ∧
     evolveGeneration 200 (run demo_calls initial) = (Ok r, e') ∧
     evolutionState e' = Some st' ∧
     status r = "evolved" ∧ reasonOf r = None ∧
     isComplete st' = isComplete st ∧
     currentGeneration st' = currentGeneration st + 1).
Proof.
  split; [|split].
  - eexists _, _, _.
    destruct (evolveGeneration_termination_order converged_calls 9 _ _ _
                ltac:(vm_compute; reflexivity) ltac:(vm_compute; reflexivity))
      as (st' & Hst' & Hconverged & _ & _).
    exists st'. split; [vm_compute; reflexivity|]. split; [vm_compute; reflexivity|].
    split; [exact Hst'|]. split; [vm_compute; discriminate|].
    apply Hconverged. eexists. split; [|split].
    + eexists _, "s1". split; [vm_compute; reflexivity|].
      split; [apply list_elem_of_here|]. split; [vm_compute; reflexivity|].
      intros check Hcheck. apply list_elem_of_singleton in Hcheck. rewrite Hcheck.
      eexists. vm_compute; reflexivity.
    + intros s (ids & i & Hids & Hi & Hs & _).
      vm_compute in Hids. injection Hids as <-.
      apply list_elem_of_singleton in Hi. rewrite Hi in Hs.
      vm_compute in Hs. injection Hs as <-. vm_compute; reflexivity.
    + vm_compute; reflexivity.
  - eexists _, _, _.
    destruct (evolveGeneration_termination_order exhausted_calls 9 _ _ _
                ltac:(vm_compute; reflexivity) ltac:(vm_compute; reflexivity))
      as (st' & Hst' & _ & Hexhausted & _).
    exists st'. split; [vm_compute; reflexivity|]. split; [vm_compute; reflexivity|].
    split; [exact Hst'|].
    apply Hexhausted.
    + intros (m & (ids & i & Hids & Hi & Hm & _) & _ & Hge).
      vm_compute in Hids. injection Hids as <-.
      apply list_elem_of_singleton in Hi. rewrite Hi in Hm.
      vm_compute in Hm. injection Hm as <-.
      vm_compute in Hge. discriminate Hge.
    + vm_compute. discriminate.
  - eexists _, _, _.
    destruct (evolveGeneration_termination_order demo_calls 200 _ _ _
                ltac:(vm_compute; reflexivity) ltac:(vm_compute; reflexivity))
      as (st' & Hst' & _ & _ & Hevolved).
    exists st'. split; [vm_compute; reflexivity|]. split; [vm_compute; reflexivity|].
    split; [exact Hst'|].
    apply Hevolved.
    + intros (m & (ids & i & Hids & Hi & Hm & _) & _ & Hge).
      vm_compute in Hids. injection Hids as <-.
      apply elem_of_cons in Hi as [Hi|Hi]; [|apply list_elem_of_singleton in Hi];
        rewrite Hi in Hm; vm_compute in Hm; injection Hm as <-;
        vm_compute in Hge; discriminate Hge.
    + vm_compute. intros Hle. apply Hle. reflexivity.
Defined.

(** ** evolveGeneration: the recommendation list *)

(** [scores[check.id] || 0] is the stored score, when there is one. *)
Lemma scoreOf_stored s check q :
  Solution.scores s !! ConsistencyCheck.id check = Some q → (scoreOf s check == q)%Q.
Proof. intros Hq. unfold scoreOf. rewrite or_else_default, Hq. reflexivity. Qed.

(** C3. Whatever calls were made before, a successful [evolveGeneration]
    call computes one recommendation per consistency check, in the order of
    the checks (it is the list an evolved report carries).  The id a
    recommendation names is listed in the current generation and designates
    a solution that has a score for every check; the recommendation carries
    that solution's stored score on its check.  No fully scored solution of
    the current generation has a greater stored score on the check, and
    every one listed earlier has a strictly smaller one: on equal scores
    the first in insertion order is kept. *)
Theorem evolveGeneration_recommendations calls now r e' st :
  evolutionState (run calls initial) = Some st →
  evolveGeneration now (run calls initial) = (Ok r, e') →
  ∃ ids sols recs,
    generationHistory st !! currentGeneration st = Some ids ∧
    resolve (run calls initial) st ids = Some sols ∧
    recommendations st (List.filter (isFullyScored st) sols) = Some recs ∧
    (∀ reported, recommendationsOf r = Some reported → reported = recs) ∧
    length recs = length (consistencyChecks st) ∧
    CrossoverRecommendation.checkId <$> recs = ConsistencyCheck.id <$> consistencyChecks st ∧
    ∀ n check rec,
      consistencyChecks st !! n = Some check → recs !! n = Some rec →
      ∃ m best q,
        ids !! m = Some (CrossoverRecommendation.bestSolutionId rec) ∧
        solutionAt (run calls initial) (CrossoverRecommendation.bestSolutionId rec)
          = Some best ∧
        scored_on_every_check st best ∧
        Solution.scores best !! ConsistencyCheck.id check = Some q ∧
        CrossoverRecommendation.score rec = Some q ∧
        (∀ j i s q',
           ids !! j = Some i → solutionAt (run calls initial) i = Some s →
           scored_on_every_check st s →
           Solution.scores s !! ConsistencyCheck.id check = Some q' →
           (q' <= q)%Q) ∧
        (∀ j i s q',
           j < m →
           ids !! j = Some i → solutionAt (run calls initial) i = Some s →
           scored_on_every_check st s →
           Solution.scores s !! ConsistencyCheck.id check = Some q' →
           (q' < q)%Q).
Proof.
  intros Hst H.
  assert (Hwf : well_formed (run calls initial))
    by apply run_well_formed, initial_well_formed.
  set (e := run calls initial) in *. clearbody e.
  destruct (evolveGeneration_Ok _ _ _ _ H)
    as (st0 & ids & sols & recs & Hst0 & Hids & _ & Hsols & _ & Hrecs & Hout).
  rewrite Hst in Hst0. injection Hst0 as <-.
  exists ids, sols, recs. do 3 (split; [done|]).
  split.
  { intros reported Hrep.
    destruct (hasConverged _ _ || maxGenerationsReached st).
    - destruct Hout as [_ ->]. done.
    - destruct Hout as [_ (focus & _ & ->)]. simpl in Hrep. congruence. }
  pose proof (recommendations_Forall2 _ _ _ Hrecs) as HF.
  split. { symmetry. by eapply Forall2_length. }
  split. { by eapply recommendations_checkIds. }
  intros n check rec Hcheck Hrec.
  assert (Hrc : recommend (List.filter (isFullyScored st) sols) check = Some rec).
  { destruct (Forall2_lookup_l _ _ _ _ _ HF Hcheck) as (rec' & Hrec' & Hok). congruence. }
  apply recommend_Some in Hrc as (best & d & Hbest & _ & ->).
  apply bestForCheck_first in Hbest as (k & Hk & Hmax & Hfirst).
  destruct (filter_lookup _ _ _ _ Hk) as (m & Hm & Hfull & Hbefore).
  destruct (resolve_lookup _ _ _ _ _ _ Hsols Hm) as (i & a & Hi & Ha & Hs).
  assert (Hid : Solution.id best = i).
  { unfold well_formed in Hwf. rewrite Hst in Hwf. destruct Hwf as (_ & _ & _ & Hreg).
    destruct (Hreg i a Ha) as (s' & Hs' & Hid). congruence. }
  assert (Hin : check ∈ consistencyChecks st).
  { apply list_elem_of_lookup. by exists n. }
  destruct (fully_scored_total e st a best check Hst Hwf Hs Hfull Hin) as [q Hq].
  pose proof (scoreOf_stored _ _ _ Hq) as Hbq.
  assert (Hfs : ∀ j i' s, ids !! j = Some i' → solutionAt e i' = Some s →
                          scored_on_every_check st s →
                          sols !! j = Some s ∧ isFullyScored st s = true).
  { intros j i' s Hi' Hs' Hall. split; [by eapply resolve_lookup_2|].
    destruct (solutionAt_store _ _ _ _ Hst Hs') as (a' & _ & Ha').
    by apply (isFullyScored_iff e st a' s). }
  exists m, best, q. cbn [CrossoverRecommendation.bestSolutionId CrossoverRecommendation.score].
  rewrite Hid. split; [done|].
  split. { unfold solutionAt. rewrite Hst. simpl. by rewrite Ha. }
  split. { by apply (isFullyScored_iff e st a best). }
  do 2 (split; [done|]). split.
  - intros j i' s q' Hi' Hs' Hall Hq'.
    destruct (Hfs j i' s Hi' Hs' Hall) as [Hj Hf].
    destruct (filter_lookup_2 _ _ _ _ Hj Hf) as (j' & Hj').
    pose proof (Hmax j' s Hj') as Hle.
    rewrite (scoreOf_stored _ _ _ Hq'), Hbq in Hle. done.
  - intros j i' s q' Hlt Hi' Hs' Hall Hq'.
    destruct (Hfs j i' s Hi' Hs' Hall) as [Hj Hf].
    destruct (Hbefore j s Hlt Hj Hf) as (j' & Hlt' & Hj').
    pose proof (Hfirst j' s Hlt' Hj') as Hle.
    rewrite (scoreOf_stored _ _ _ Hq'), Hbq in Hle. done.
Qed.

Lemma evolveGeneration_recommendations_witness :
  ∃ r e' st,
    evolutionState (run demo_calls initial) = Some st ∧
    evolveGeneration 200 (run demo_calls initial) = (Ok r, e') ∧
    (fmap (M := list) CrossoverRecommendation.bestSolutionId <$> recommendationsOf r)
      = Some ["s1"; "s2"] ∧
    ∃ ids sols recs,
      generationHistory st !! currentGeneration st = Some ids ∧
      resolve (run demo_calls initial) st ids = Some sols ∧
      recommendations st (List.filter (isFullyScored st) sols) = Some recs ∧
      (∀ reported, recommendationsOf r = Some reported → reported = recs) ∧
      length recs = length (consistencyChecks st) ∧
      CrossoverRecommendation.checkId <$> recs
        = ConsistencyCheck.id <$> consistencyChecks st ∧
      ∀ n check rec,
        consistencyChecks st !! n = Some check → recs !! n = Some rec →
        ∃ m best q,
          ids !! m = Some (CrossoverRecommendation.bestSolutionId rec) ∧
          solutionAt (run demo_calls initial) (CrossoverRecommendation.bestSolutionId rec)
            = Some best ∧
          scored_on_every_check st best ∧
          Solution.scores best !! ConsistencyCheck.id check = Some q ∧
          CrossoverRecommendation.score rec = Some q ∧
          (∀ j i s q',
             ids !! j = Some i → solutionAt (run demo_calls initial) i = Some s →
             scored_on_every_check st s →
             Solution.scores s !! ConsistencyCheck.id check = Some q' →
             (q' <= q)%Q) ∧
          (∀ j i s q',
             j < m →
             ids !! j = Some i → solutionAt (run demo_calls initial) i = Some s →
             scored_on_every_check st s →
             Solution.scores s !! ConsistencyCheck.id check = Some q' →
             (q' < q)%Q).
Proof.
  eexists _, _, _.
  split; [vm_compute; reflexivity|]. split; [vm_compute; reflexivity|].
  split; [vm_compute; reflexivity|].
  eapply (evolveGeneration_recommendations demo_calls 200).
  - vm_compute; reflexivity.
  - vm_compute; reflexivity.
Defined.

(** ** Failure leaves no trace *)

Lemma scoreSolution_thrown input e err e' :
  scoreSolution input e = (Failed err, e') → thrown err = true → e' = e.
Proof.
  unfold scoreSolution, bind, getState, setState, requireString, ret, throw, deref, assign.
  intros H Herr.
  destruct (evolutionState e) as [st|] eqn:Hst; [|by injection H].
  destruct (ScoreInput.solutionId input) as [sid|]; [|by injection H].
  case_bool_decide; [by injection H|].
  destruct (ScoreInput.checkId input) as [cid|]; [|by injection H].
  case_bool_decide; [by injection H|].
  destruct (ScoreInput.score input) as [q|]; [|by injection H].
  destruct (Qltb q 0 || Qltb 1 q); [by injection H|].
  destruct (solutions st !! sid) as [a|]; [|by injection H].
  destruct (findCheck (consistencyChecks st) cid) as [c|]; [|by injection H].
  destruct (store e !! a) as [s|] eqn:Hs; [|by injection H as <- <-].
  exfalso. cbn beta iota zeta delta [store evolutionState] in H.
  destruct (bestSolution st) as [b|] eqn:Hb; [|discriminate H].
  match type of H with context [?l !! b] => destruct (l !! b) as [bs|] end;
    cbn beta iota in H.
  - by destruct (gtb _ _).
  - injection H as <- _. discriminate Herr.
Qed.

Lemma evolveGeneration_thrown now e err e' :
  evolveGeneration now e = (Failed err, e') → thrown err = true → e' = e.
Proof.
  unfold evolveGeneration, solutionsOf, snapshotBest, bind, getState, setState,
    orTypeError, ret, throw.
  intros H Herr.
  destruct (evolutionState e) as [st|] eqn:Hst; [|by injection H].
  destruct (generationHistory st !! currentGeneration st) as [ids|] eqn:Hids;
    reduce_in H; [|by injection H].
  destruct ids as [|i ids]; reduce_in H; [by injection H|].
  destruct (resolve e st (i :: ids)) as [sols|] eqn:Hsols;
    reduce_in H; [|by injection H].
  destruct (List.filter (isFullyScored st) sols) as [|s0 fs] eqn:Hfs;
    reduce_in H; [by injection H|].
  destruct (recommendations st (s0 :: fs)) as [recs|] eqn:Hrecs;
    reduce_in H; [|by injection H].
  destruct (hasConverged st (s0 :: fs) || maxGenerationsReached st);
    reduce_in H; [discriminate H|].
  destruct (mapM focusArea recs) as [focus|]; reduce_in H; [discriminate H|].
  injection H as <- _. discriminate Herr.
Qed.

Lemma call_thrown c e err e' :
  call c e = (Failed err, e') → thrown err = true → e' = e.
Proof.
  intros H Herr. destruct c as [input now|input newId now|input|now|now]; simpl in H.
  - destruct (startEvolution_cases input now e)
      as [(err' & Hf & _)|(p & checks & cs & _ & _ & _ & _ & Hok)]; congruence.
  - destruct (addSolution_cases input newId now e)
      as [(err' & Hf)|(st & content & _ & _ & _ & Hok)]; congruence.
  - by eapply scoreSolution_thrown.
  - by eapply evolveGeneration_thrown.
  - pose proof (getEvolutionStatus_unchanged now e) as Hs. by rewrite H in Hs.
Qed.

Lemma scoreSolution_out_of_range input e q :
  ScoreInput.score input = Some q → (q < 0 ∨ 1 < q)%Q →
  ∃ err, scoreSolution input e = (Failed err, e) ∧ thrown err = true.
Proof.
  intros Hq Hrange.
  unfold scoreSolution, bind, getState, requireString, ret, throw.
  destruct (evolutionState e) as [st|]; [|by eexists].
  destruct (ScoreInput.solutionId input) as [sid|]; [|by eexists].
  case_bool_decide; [by eexists|].
  destruct (ScoreInput.checkId input) as [cid|]; [|by eexists].
  case_bool_decide; [by eexists|].
  rewrite Hq.
  assert (Hout : Qltb q 0 || Qltb 1 q = true).
  { apply orb_true_iff. destruct Hrange as [H1|H1]; [left|right]; by apply Qltb_lt. }
  rewrite Hout. by eexists.
Qed.

Lemma evolveGeneration_no_solutions now e st :
  evolutionState e = Some st →
  default [] (generationHistory st !! currentGeneration st) = [] →
  evolveGeneration now e = (Failed NoSolutions, e).
Proof.
  intros Hst Hnone.
  unfold evolveGeneration, bind, getState, throw. rewrite Hst, Hnone. done.
Qed.

(** C5. A call that returns one of the error payloads the engine throws
    itself (a validation, not-found, not-started or precondition error)
    leaves the engine exactly as it found it: the session, or its absence,
    and every solution object.  A score outside [0,1] is rejected with
    such an error, so the solution keeps its [scores] and
    [compositeScore]; so is [evolveGeneration] on a generation without
    solutions, so [currentGeneration] and [isComplete] stay as they
    were. *)
Theorem rejected_call_leaves_engine_unchanged :
  (∀ c e err e',
     call c e = (Failed err, e') → thrown err = true → e' = e) ∧
  (∀ input e q,
     ScoreInput.score input = Some q → (q < 0 ∨ 1 < q)%Q →
     ∃ err, call (CallScore input) e = (Failed err, e) ∧ thrown err = true) ∧
  (∀ now e st,
     evolutionState e = Some st →
     default [] (generationHistory st !! currentGeneration st) = [] →
     call (CallEvolve now) e = (Failed NoSolutions, e)).
Proof.
  split; [|split].
  - apply call_thrown.
  - apply scoreSolution_out_of_range.
  - apply evolveGeneration_no_solutions.
Qed.

Lemma rejected_call_leaves_engine_unchanged_witness :
  (∃ err e',
     call (CallScore (demo_score "s1" "check_1" (3 # 2))) demo = (Failed err, e') ∧
     thrown err = true ∧ e' = demo) ∧
  (∃ err,
     call (CallScore (demo_score "s1" "check_1" (3 # 2))) demo = (Failed err, demo) ∧
     thrown err = true) ∧
  call (CallEvolve 9) (run [CallStart demo_start 0] initial)
    = (Failed NoSolutions, run [CallStart demo_start 0] initial).
Proof.
  destruct rejected_call_leaves_engine_unchanged as (Hsame & Hscore & Hevolve).
  split; [|split].
  - eexists _, _.
    assert (Hcall : call (CallScore (demo_score "s1" "check_1" (3 # 2))) demo
                    = (Failed ScoreRequired, demo)) by (vm_compute; reflexivity).
    split; [exact Hcall|]. split; [reflexivity|].
    exact (Hsame _ _ _ _ Hcall eq_refl).
  - apply (Hscore (demo_score "s1" "check_1" (3 # 2)) demo (3 # 2)%Q).
    + reflexivity.
    + right. reflexivity.
  - eapply Hevolve; vm_compute; reflexivity.
Defined.

(** ** The history invariant *)

(** The first half of the invariant gives the second its uniqueness. *)
Lemma history_consistent_intro e :
  (∀ st, evolutionState e = Some st →
     (∀ g i, listed st g i →
        ∃ a s, solutions st !! i = Some a ∧ store e !! a = Some s ∧
               Solution.generation s = g) ∧
     (∀ i, is_Some (solutions st !! i) → ∃ g, listed st g i)) →
  history_consistent e.
Proof.
  intros H st Hst. destruct (H st Hst) as [Hgen Hex]. split; [done|].
  intros i Hi. destruct (Hex i Hi) as [g Hg]. exists g. split; [done|].
  intros g' Hg'.
  destruct (Hgen g i Hg) as (a & s & Ha & Hs & <-).
  destruct (Hgen g' i Hg') as (a' & s' & Ha' & Hs' & <-).
  congruence.
Qed.

Lemma call_history_consistent c e :
  well_formed e → history_consistent e → fresh_call c e →
  history_consistent (snd (call c e)).
Proof.
  intros Hwf Hinv Hfresh. destruct (call c e) as [[r|err] e'] eqn:Hcall; simpl;
    [|by rewrite (call_Failed _ _ _ _ Hwf Hcall)].
  destruct c as [input now|input newId now|input|now|now]; simpl in Hcall.
  - destruct (startEvolution_cases input now e)
      as [(err' & Hf & _)|(p & checks & cs & _ & _ & _ & Hcs & Hok)]; [congruence|].
    rewrite Hok in Hcall. injection Hcall as <- <-.
    apply history_consistent_intro. intros st [= <-]. simpl. split.
    + intros g i (ids & Hids & _). simpl in Hids. by rewrite lookup_empty in Hids.
    + intros i Hi. simpl in Hi. rewrite lookup_empty in Hi. by destruct Hi.
  - destruct (addSolution_cases input newId now e)
      as [(err' & Hf)|(st & content & Hst & _ & _ & Hok)]; [congruence|].
    simpl in Hfresh. pose proof (fun s => Hfresh r e' st s Hcall Hst) as Hfresh'.
    clear Hfresh. rename Hfresh' into Hfresh.
    rewrite Hok in Hcall. injection Hcall as <- <-.
    destruct (Hinv st Hst) as [Hgen Huniq].
    assert (Hold : ∀ g, listed st g newId → g = currentGeneration st).
    { intros g Hl. destruct (Hgen g newId Hl) as (a & s & Ha & Hs & <-).
      apply Hfresh. unfold solutionAt. rewrite Hst. simpl. by rewrite Ha. }
    apply history_consistent_intro. intros st' [= <-]. simpl. split.
    + intros g i (ids & Hids & Hi). simpl in Hids.
      assert (Hcase : listed st g i ∨ (g = currentGeneration st ∧ i = newId)).
      { destruct (decide (g = currentGeneration st)) as [->|Hg].
        - rewrite lookup_insert_eq in Hids. injection Hids as <-.
          apply elem_of_app in Hi as [Hi|Hi%list_elem_of_singleton]; [|by right].
          left. destruct (generationHistory st !! currentGeneration st) as [old|] eqn:Hb;
            simpl in Hi; [by exists old|]. by apply elem_of_nil in Hi.
        - rewrite lookup_insert_ne in Hids by done. left. by exists ids. }
      assert (Hnew : i = newId → g = currentGeneration st).
      { intros ->. destruct Hcase as [Hl|[-> _]]; [by apply Hold|done]. }
      destruct (decide (i = newId)) as [->|Hne].
      * rewrite (Hnew eq_refl).
        exists (length (store e)), (addedSolution input newId now st content).
        rewrite lookup_insert_eq. split; [done|]. split; [|done].
        rewrite lookup_app_r by done. by rewrite Nat.sub_diag.
      * destruct Hcase as [Hl|[_ ->]]; [|done].
        destruct (Hgen g i Hl) as (a & s & Ha & Hs & Hg). exists a, s.
        rewrite lookup_insert_ne by done.
        split; [done|]. split; [|done]. by apply lookup_app_l_Some.
    + intros i Hi. simpl.
      destruct (decide (i = newId)) as [->|Hne].
      * exists (currentGeneration st). eexists. simpl. rewrite lookup_insert_eq.
        split; [done|]. apply elem_of_app. right. by apply list_elem_of_singleton.
      * rewrite lookup_insert_ne in Hi by done.
        destruct (Huniq i Hi) as (g & (ids & Hids & Hin) & _). exists g.
        destruct (decide (g = currentGeneration st)) as [->|Hg].
        -- eexists. simpl. rewrite lookup_insert_eq. split; [done|].
           apply elem_of_app. left. by rewrite Hids.
        -- exists ids. simpl. by rewrite lookup_insert_ne.
  - destruct (scoreSolution_Ok _ _ _ _ Hcall)
      as (st & sid & cid & q & a & c0 & s & Hst & _ & _ & _ & _ & _ & _
          & Ha & Hc & Hs & best' & -> & _ & _).
    destruct (Hinv st Hst) as [Hgen Huniq].
    assert (Hlt : a < length (store e)) by (by eapply lookup_lt_Some).
    apply history_consistent_intro. intros st' [= <-]. simpl. split.
    + intros g i Hl. destruct (Hgen g i Hl) as (a' & s' & Ha' & Hs' & Hg).
      exists a'. destruct (decide (a' = a)) as [->|Hne].
      * eexists. split; [done|]. rewrite list_lookup_insert_eq by done.
        split; [done|]. simpl. congruence.
      * exists s'. by rewrite list_lookup_insert_ne.
    + intros i Hi. destruct (Huniq i Hi) as (g & Hl & _). by exists g.
  - destruct (evolveGeneration_Ok _ _ _ _ Hcall)
      as (st & ids & sols & recs & Hst & _ & _ & _ & _ & _ & Hout).
    destruct (Hinv st Hst) as [Hgen Huniq].
    assert (∃ st', e' = mkEngine (store e) (Some st') ∧
                   solutions st' = solutions st ∧
                   generationHistory st' = generationHistory st)
      as (st' & -> & Hsol & Hhist).
    { destruct (hasConverged _ _ || maxGenerationsReached st);
        destruct Hout as [-> _]; by eexists. }
    intros st'' [= <-]. unfold listed. simpl. rewrite Hsol, Hhist. by split.
  - pose proof (getEvolutionStatus_unchanged now e) as Hs. rewrite Hcall in Hs.
    simpl in Hs. by subst.
Qed.

Lemma run_history_consistent calls e :
  well_formed e → history_consistent e → fresh_run calls e →
  history_consistent (run calls e).
Proof.
  revert e. induction calls as [|c calls IH]; intros e Hwf Hinv Hfresh; [done|].
  destruct Hfresh as [Hc Hrest]. simpl. apply IH; [|by apply call_history_consistent|done].
  by apply call_well_formed.
Qed.

Lemma startEvolution_history_consistent input now e r e' :
  startEvolution input now e = (Ok r, e') → history_consistent e'.
Proof.
  intros H.
  destruct (startEvolution_cases input now e)
    as [(err' & Hf & _)|(p & checks & cs & _ & _ & _ & Hcs & Hok)]; [congruence|].
  rewrite Hok in H. injection H as <- <-.
  apply history_consistent_intro. intros st [= <-]. simpl. split.
  - intros g i (ids & Hids & _). simpl in Hids. by rewrite lookup_empty in Hids.
  - intros i Hi. simpl in Hi. rewrite lookup_empty in Hi. by destruct Hi.
Qed.

(** C8, as the code has it.  The invariant (every id listed in
    [generationHistory[g]] designates a solution whose [generation] is [g],
    and every id of [solutions] is listed in exactly one bucket) holds when
    the engine is created and after every successful start, and every
    operation preserves it, provided [generateId] does not return an id
    that a solution of an earlier generation of the session has. *)
Theorem generationHistory_invariant :
  history_consistent initial ∧
  (∀ input now e r e',
     startEvolution input now e = (Ok r, e') → history_consistent e') ∧
  (∀ calls c,
     history_consistent (run calls initial) →
     fresh_call c (run calls initial) →
     history_consistent (snd (call c (run calls initial)))).
Proof.
  split; [by intros st|]. split; [apply startEvolution_history_consistent|].
  intros calls c. apply call_history_consistent.
  apply run_well_formed, initial_well_formed.
Qed.

Lemma generationHistory_invariant_witness :
  history_consistent (run same_generation_calls initial).
Proof.
  destruct generationHistory_invariant as (Hinitial & _ & Hstep).
  pose (c1 := CallStart demo_start 0).
  pose (c2 := CallAdd (AddInput.mk (Some "x") None) "s1" 1).
  pose (c3 := CallAdd (AddInput.mk (Some "y") None) "s1" 2).
  pose (c4 := CallScore (demo_score "s1" "check_1" (1 # 2))).
  assert (H1 : history_consistent (run [c1] initial)).
  { exact (Hstep [] c1 Hinitial I). }
  assert (H2 : history_consistent (run [c1; c2] initial)).
  { refine (Hstep [c1] c2 H1 _).
    intros r e' st s _ Hst Hs. vm_compute in Hs. discriminate Hs. }
  assert (H3 : history_consistent (run [c1; c2; c3] initial)).
  { refine (Hstep [c1; c2] c3 H2 _).
    intros r e' st s _ Hst Hs. vm_compute in Hst, Hs.
    injection Hst as <-. injection Hs as <-. reflexivity. }
  exact (Hstep [c1; c2; c3] c4 H3 I).
Defined.

(** C8, as the specification words it, fails: nothing keeps [generateId]
    from returning an id twice.  When it does so across an evolution, the
    id stays listed in bucket 0 and designates a solution of
    generation 1. *)
Lemma repeated_id_breaks_history : ¬ history_always_consistent.
Proof.
  intros Hclaim.
  assert (∃ st,
            evolutionState (run repeated_id_calls initial) = Some st ∧
            generationHistory st !! 0 = Some ["s1"] ∧
            solutions st !! "s1" = Some 1 ∧
            (Solution.generation <$> store (run repeated_id_calls initial) !! 1) = Some 1)
    as (st & Hst & Hbucket & Ha & Hg).
  { eexists. split; [vm_compute; reflexivity|].
    split; [vm_compute; reflexivity|]. split; vm_compute; reflexivity. }
  destruct (Hclaim repeated_id_calls st Hst) as [Hgen _].
  destruct (Hgen 0 "s1") as (a & s & Ha' & Hs & Hzero).
  { exists ["s1"]. split; [exact Hbucket|]. by apply list_elem_of_singleton. }
  rewrite Ha in Ha'. injection Ha' as <-.
  rewrite Hs in Hg. simpl in Hg. congruence.
Qed.

(** * Further properties *)

(** ** startEvolution *)

Lemma mapChecks_lookup index checks cs n check :
  mapChecks index checks = Some cs → checks !! n = Some check →
  ∃ c, cs !! n = Some c ∧ normalizeCheck check (index + n) = Some c.
Proof.
  revert index cs n. induction checks as [|x checks IH]; intros index cs n; [done|].
  simpl. destruct (normalizeCheck x index) as [c|] eqn:Hc; [|done].
  destruct (mapChecks (S index) checks) as [cs'|] eqn:Hcs; [|done].
  intros [= <-] Hn. destruct n as [|n]; simpl in *.
  - injection Hn as <-. exists c. by rewrite Nat.add_0_r.
  - destruct (IH _ _ _ Hcs Hn) as (c' & Hc' & Hnorm). exists c'.
    split; [done|]. by rewrite <- Nat.add_succ_comm.
Qed.

Lemma mapChecks_is_Some index checks :
  is_Some (mapChecks index checks) ↔ CheckNull ∉ checks.
Proof.
  revert index. induction checks as [|x checks IH]; intros index; simpl.
  - split; [|by eexists]. intros _ H. by apply elem_of_nil in H.
  - rewrite not_elem_of_cons, <- (IH (S index)).
    destruct x; simpl; destruct (mapChecks (S index) checks);
      split; try (by intros [? ?]); try (by eexists);
      try (intros [? [? ?]]; done); try (intros []; done).
Qed.

(** X1. A start succeeds only when [problemStatement] is a non-empty
    string, [consistencyChecks] is an array and none of its elements is
    [null] or [undefined].  An array that holds such an element makes the
    call fail while the checks are numbered, before the session is
    replaced: the engine is left as it was. *)
Theorem startEvolution_requirements input now e :
  (∀ r e',
     startEvolution input now e = (Ok r, e') →
     ∃ problem checks,
       StartInput.problemStatement input = Some problem ∧ problem ≠ "" ∧
       StartInput.consistencyChecks input = Some checks ∧ CheckNull ∉ checks) ∧
  (∀ checks,
     StartInput.consistencyChecks input = Some checks → CheckNull ∈ checks →
     ∃ err, startEvolution input now e = (Failed err, e)).
Proof.
  destruct (startEvolution_cases input now e)
    as [(err & Hf & Herr)|(p & checks & cs & Hp & Hne & Hc & Hcs & Hok)].
  - split.
    + intros r e' H. congruence.
    + intros checks _ _. by exists err.
  - split.
    + intros r e' _. exists p, checks. do 3 (split; [done|]).
      apply (mapChecks_is_Some 0). by rewrite Hcs.
    + intros checks' Hc' Hnull. exfalso.
      rewrite Hc in Hc'. injection Hc' as <-.
      assert (Hsome : is_Some (mapChecks 0 checks)) by (by rewrite Hcs).
      by apply (mapChecks_is_Some 0) in Hsome.
Qed.

Lemma startEvolution_requirements_witness :
  ∃ err,
    startEvolution
      (StartInput.mk (Some "p") (Some [CheckString "c"; CheckNull]) None None None) 5 demo
    = (Failed err, demo).
Proof.
  apply (startEvolution_requirements
           (StartInput.mk (Some "p") (Some [CheckString "c"; CheckNull]) None None None)
           5 demo) with [CheckString "c"; CheckNull].
  - reflexivity.
  - apply elem_of_cons. right. apply list_elem_of_here.
Defined.

(** X2. A successful start numbers the checks [check_1], [check_2], ... in
    the order supplied: as many checks as elements, ids pairwise distinct,
    a string element stored as description with weight 1, a record with its
    own description. *)
Theorem startEvolution_check_ids input now e r e' :
  startEvolution input now e = (Ok r, e') →
  ∃ checks st,
    StartInput.consistencyChecks input = Some checks ∧
    evolutionState e' = Some st ∧
    length (consistencyChecks st) = length checks ∧
    NoDup (ConsistencyCheck.id <$> consistencyChecks st) ∧
    ∀ n check, checks !! n = Some check →
      ∃ c, consistencyChecks st !! n = Some c ∧
           ConsistencyCheck.id c = "check_" +:+ pretty (n + 1) ∧
           match check with
           | CheckString s =>
               ConsistencyCheck.description c = Some s ∧
               ConsistencyCheck.weight c = 1%Q
           | CheckRecord d _ => ConsistencyCheck.description c = d
           | CheckNull => False
           end.
Proof.
  intros H.
  destruct (startEvolution_cases input now e)
    as [(err & Hf & _)|(p & checks & cs & Hp & Hne & Hc & Hcs & Hok)]; [congruence|].
  rewrite Hok in H. injection H as <- <-.
  exists checks, (startedState input now p cs). do 2 (split; [done|]). simpl.
  split. { rewrite <- (length_fmap ConsistencyCheck.id), (mapChecks_ids _ _ _ Hcs).
           by rewrite length_fmap, length_seq. }
  split; [by eapply mapChecks_NoDup|].
  intros n check Hn.
  destruct (mapChecks_lookup _ _ _ _ _ Hcs Hn) as (c & Hcn & Hnorm).
  exists c. split; [done|]. simpl in Hnorm.
  destruct check; simpl in Hnorm; [| |done]; by injection Hnorm as <-.
Qed.

Lemma startEvolution_check_ids_witness :
  ∃ r e' st c,
    startEvolution demo_start 0 demo = (Ok r, e') ∧
    evolutionState e' = Some st ∧
    length (consistencyChecks st) = 2 ∧
    NoDup (ConsistencyCheck.id <$> consistencyChecks st) ∧
    consistencyChecks st !! 1 = Some c ∧
    ConsistencyCheck.id c = "check_2" ∧
    ConsistencyCheck.description c = Some "correct".
Proof.
  eexists _, _.
  destruct (startEvolution_check_ids demo_start 0 demo _ _ ltac:(vm_compute; reflexivity))
    as (checks & st & Hc & Hst & Hlen & Hnd & Hnth).
  injection Hc as <-.
  destruct (Hnth 1 (CheckString "correct") eq_refl) as (c & Hc & Hid & Hd & _).
  exists st, c. split; [vm_compute; reflexivity|].
  exact (conj Hst (conj Hlen (conj Hnd (conj Hc (conj Hid Hd))))).
Defined.

Lemma or_else_cases (x : option Q) (d : Q) :
  (∃ q, x = Some q ∧ ¬ (q == 0)%Q ∧ or_else x d = q) ∨
  ((x = None ∨ ∃ q, x = Some q ∧ (q == 0)%Q) ∧ or_else x d = d).
Proof.
  destruct x as [q|]; simpl; [|right; by split; [left|]].
  unfold truthy. destruct (Qeq_bool q 0) eqn:E; simpl.
  - right. split; [|done]. right. exists q. split; [done|]. by apply Qeq_bool_iff.
  - left. exists q. split; [done|]. split; [|done].
    intros Hq%Qeq_bool_iff. congruence.
Qed.

Lemma or_else_nonzero_result (x : option Q) (d : Q) :
  ¬ (d == 0)%Q → ¬ (or_else x d == 0)%Q.
Proof.
  intros Hd. destruct (or_else_cases x d) as [(q & _ & Hq & ->)|[_ ->]]; done.
Qed.

Lemma mapChecks_weights index checks cs :
  mapChecks index checks = Some cs →
  Forall (fun c => ¬ (ConsistencyCheck.weight c == 0)%Q) cs.
Proof.
  revert index cs. induction checks as [|x checks IH]; intros index cs; simpl.
  - intros [= <-]. constructor.
  - destruct (normalizeCheck x index) as [c|] eqn:Hc; [|done].
    destruct (mapChecks (S index) checks) as [cs'|] eqn:Hcs; [|done].
    intros [= <-]. constructor; [|by eapply IH].
    destruct x; simpl in Hc; [| |done]; injection Hc as <-; simpl.
    + done.
    + by apply or_else_nonzero_result.
Qed.

(** X3. The defaults are taken with [||]: after a successful start none of
    [maxGenerations], [populationSize], [convergenceThreshold] and no check
    weight is zero.  A number supplied and different from zero is stored as
    it is; a missing one or a zero gives 5, 3 and 0.95. *)
Theorem startEvolution_configuration input now e r e' :
  startEvolution input now e = (Ok r, e') →
  ∃ st,
    evolutionState e' = Some st ∧
    ¬ (maxGenerations st == 0)%Q ∧ ¬ (populationSize st == 0)%Q ∧
    ¬ (convergenceThreshold st == 0)%Q ∧
    Forall (fun c => ¬ (ConsistencyCheck.weight c == 0)%Q) (consistencyChecks st) ∧
    (∀ q, StartInput.maxGenerations input = Some q → ¬ (q == 0)%Q →
          maxGenerations st = q) ∧
    (∀ q, StartInput.populationSize input = Some q → ¬ (q == 0)%Q →
          populationSize st = q) ∧
    (∀ q, StartInput.convergenceThreshold input = Some q → ¬ (q == 0)%Q →
          convergenceThreshold st = q) ∧
    (StartInput.maxGenerations input = None ∨
     StartInput.maxGenerations input = Some 0%Q → maxGenerations st = 5%Q) ∧
    (StartInput.populationSize input = None ∨
     StartInput.populationSize input = Some 0%Q → populationSize st = 3%Q) ∧
    (StartInput.convergenceThreshold input = None ∨
     StartInput.convergenceThreshold input = Some 0%Q →
     convergenceThreshold st = (95 # 100)%Q).
Proof.
  intros H.
  destruct (startEvolution_cases input now e)
    as [(err & Hf & _)|(p & checks & cs & Hp & Hne & Hc & Hcs & Hok)]; [congruence|].
  rewrite Hok in H. injection H as <- <-.
  exists (startedState input now p cs). split; [done|]. simpl.
  split; [by apply or_else_nonzero_result|].
  split; [by apply or_else_nonzero_result|].
  split; [by apply or_else_nonzero_result|].
  split; [by eapply mapChecks_weights|].
  split; [intros q -> Hq; by apply or_else_nonzero|].
  split; [intros q -> Hq; by apply or_else_nonzero|].
  split; [intros q -> Hq; by apply or_else_nonzero|].
  split; [by intros [-> | ->]|]. split; by intros [-> | ->].
Qed.

Lemma startEvolution_configuration_witness :
  ∃ r e' st,
    startEvolution
      (StartInput.mk (Some "p") (Some [CheckString "c"]) (Some 0%Q) (Some 7%Q) None)
      0 demo = (Ok r, e') ∧
    evolutionState e' = Some st ∧
    maxGenerations st = 5%Q ∧ populationSize st = 7%Q ∧
    convergenceThreshold st = (95 # 100)%Q.
Proof.
  eexists _, _.
  destruct (startEvolution_configuration
              (StartInput.mk (Some "p") (Some [CheckString "c"]) (Some 0%Q) (Some 7%Q) None)
              0 demo _ _ ltac:(vm_compute; reflexivity))
    as (st & Hst & _ & _ & _ & _ & _ & Hps & _ & Hmg & _ & Hct).
  exists st. split; [vm_compute; reflexivity|]. split; [exact Hst|].
  split; [apply Hmg; right; reflexivity|].
  split; [apply Hps; [reflexivity|discriminate]|]. apply Hct. left. reflexivity.
Defined.

(** X4. A successful start replaces the session outright: its reply and
    the engine it leaves do not depend on the engine it found, no solution
    object survives, and the new session is at generation 0 with no
    solution, no history, no best solution and [isComplete] false. *)
Theorem startEvolution_replaces_session input now e1 e2 r e' :
  startEvolution input now e1 = (Ok r, e') →
  startEvolution input now e2 = (Ok r, e') ∧
  store e' = [] ∧
  ∃ st, evolutionState e' = Some st ∧
    StartInput.problemStatement input = Some (problemStatement st) ∧
    currentGeneration st = 0 ∧ solutions st = ∅ ∧ generationHistory st = ∅ ∧
    bestSolution st = None ∧ isComplete st = false ∧ startTime st = now.
Proof.
  intros H.
  destruct (startEvolution_cases input now e1)
    as [(err & Hf & _)|(p & checks & cs & Hp & Hne & Hc & Hcs & Hok)]; [congruence|].
  rewrite Hok in H. injection H as <- <-.
  destruct (startEvolution_cases input now e2)
    as [(err & Hf & Herr)|(p' & checks' & cs' & Hp' & _ & Hc' & Hcs' & Hok')].
  - exfalso. destruct err; try done.
    + destruct Herr; congruence.
    + congruence.
    + destruct Herr as (checks' & Hc' & Hnone). congruence.
  - simplify_eq. split; [done|]. split; [done|]. by eexists.
Qed.

Lemma startEvolution_replaces_session_witness :
  ∃ r e',
    startEvolution demo_start 5 demo = (Ok r, e') ∧
    startEvolution demo_start 5 initial = (Ok r, e') ∧ store e' = [].
Proof.
  eexists _, _. split; [vm_compute; reflexivity|].
  destruct (startEvolution_replaces_session demo_start 5 demo initial _ _
              ltac:(vm_compute; reflexivity)) as (H2 & Hs & _).
  exact (conj H2 Hs).
Defined.

(** ** addSolution *)

(** X5. [addSolution] succeeds exactly when a session exists and [content]
    is a non-empty string: neither [populationSize] nor [isComplete] nor the
    parent ids are looked at. *)
Theorem addSolution_succeeds_iff input newId now e :
  (∃ r e', addSolution input newId now e = (Ok r, e')) ↔
  is_Some (evolutionState e) ∧
  ∃ content, AddInput.content input = Some content ∧ content ≠ "".
Proof.
  split.
  - intros (r & e' & H).
    destruct (addSolution_cases input newId now e)
      as [(err & Hf)|(st & content & Hst & Hc & Hne & _)]; [congruence|].
    split; [by rewrite Hst|]. by exists content.
  - intros [[st Hst] (content & Hc & Hne)].
    unfold addSolution, bind, getState, setState, requireString, alloc, ret, throw.
    rewrite Hst, Hc. rewrite bool_decide_eq_false_2 by done. by eexists _, _.
Qed.

(** X6. A successful [addSolution] registers a new object under the
    generated id: the id resolves to a solution with the given content, the
    current generation, the parent ids as supplied, no score and composite
    score 0; the id is appended to the bucket of the current generation,
    whose new length the reply reports. *)
Theorem addSolution_registers input newId now e r e' :
  addSolution input newId now e = (Ok r, e') →
  ∃ st st' content,
    evolutionState e = Some st ∧ evolutionState e' = Some st' ∧
    AddInput.content input = Some content ∧
    solutionAt e' newId =
      Some (Solution.mk newId content (currentGeneration st) ∅ (Fin 0)
              (default [] (AddInput.parentSolutions input)) now) ∧
    generationHistory st' !! currentGeneration st =
      Some (default [] (generationHistory st !! currentGeneration st) ++ [newId]) ∧
    r = Added newId (currentGeneration st)
          (S (length (default [] (generationHistory st !! currentGeneration st))))
          (populationSize st).
Proof.
  intros H.
  destruct (addSolution_cases input newId now e)
    as [(err & Hf)|(st & content & Hst & Hc & Hne & Hok)]; [congruence|].
  rewrite Hok in H. injection H as <- <-.
  eexists st, _, content. do 3 (split; [done|]).
  split.
  { unfold solutionAt. simpl. rewrite lookup_insert_eq. simpl.
    rewrite lookup_app_r by done. by rewrite Nat.sub_diag. }
  split. { simpl. by rewrite lookup_insert_eq. }
  f_equal. rewrite length_app. simpl. lia.
Qed.

Lemma addSolution_registers_witness :
  ∃ r e' s,
    addSolution (AddInput.mk (Some "z") (Some ["s1"])) "s3" 7 demo = (Ok r, e') ∧
    solutionAt e' "s3" = Some s ∧ Solution.parentSolutions s = ["s1"] ∧
    r = Added "s3" 0 3 3%Q.
Proof.
  destruct (addSolution_registers (AddInput.mk (Some "z") (Some ["s1"])) "s3" 7 demo _ _
              ltac:(vm_compute; reflexivity))
    as (st & st' & content & Hst & _ & _ & Hat & _ & Hr).
  vm_compute in Hst. injection Hst as <-.
  eexists _, _, _. split; [vm_compute; reflexivity|].
  split; [exact Hat|]. split; [reflexivity|]. exact Hr.
Defined.

(** X7. A successful [addSolution] touches nothing else: every solution
    object is as before, every other id resolves as before, every other
    bucket is as before, and the configuration, the checks, the generation
    counter, [bestSolution] and [isComplete] are unchanged. *)
Theorem addSolution_frame input newId now e r e' :
  addSolution input newId now e = (Ok r, e') →
  ∃ st st',
    evolutionState e = Some st ∧ evolutionState e' = Some st' ∧
    (∀ a s, store e !! a = Some s → store e' !! a = Some s) ∧
    (∀ i, i ≠ newId → solutions st' !! i = solutions st !! i) ∧
    (∀ g, g ≠ currentGeneration st →
          generationHistory st' !! g = generationHistory st !! g) ∧
    problemStatement st' = problemStatement st ∧
    consistencyChecks st' = consistencyChecks st ∧
    currentGeneration st' = currentGeneration st ∧
    maxGenerations st' = maxGenerations st ∧
    populationSize st' = populationSize st ∧
    convergenceThreshold st' = convergenceThreshold st ∧
    bestSolution st' = bestSolution st ∧
    isComplete st' = isComplete st ∧
    startTime st' = startTime st.
Proof.
  intros H.
  destruct (addSolution_cases input newId now e)
    as [(err & Hf)|(st & content & Hst & Hc & Hne & Hok)]; [congruence|].
  rewrite Hok in H. injection H as <- <-.
  eexists st, _. do 2 (split; [done|]). simpl.
  split. { intros a s Hs. by apply lookup_app_l_Some. }
  split. { intros i Hi. by rewrite lookup_insert_ne. }
  split. { intros g Hg. by rewrite lookup_insert_ne. }
  done.
Qed.

Lemma addSolution_frame_witness :
  ∃ r e' st st',
    addSolution (AddInput.mk (Some "z") None) "s3" 7 demo = (Ok r, e') ∧
    evolutionState demo = Some st ∧ evolutionState e' = Some st' ∧
    bestSolution st' = bestSolution st ∧
    solutions st' !! "s1" = solutions st !! "s1".
Proof.
  eexists _, _.
  destruct (addSolution_frame (AddInput.mk (Some "z") None) "s3" 7 demo _ _
              ltac:(vm_compute; reflexivity))
    as (st & st' & Hst & Hst' & _ & Hsol & _ & _ & _ & _ & _ & _ & _ & Hb & _).
  exists st, st'. split; [vm_compute; reflexivity|].
  refine (conj Hst (conj Hst' (conj Hb (Hsol "s1" _)))). discriminate.
Defined.

(** ** scoreSolution *)

(** X8. A successful [scoreSolution] overwrites: afterwards the solution
    holds exactly the given score for the check and its other scores as
    before, so the number of checks it is scored against grows by one when
    the check was unscored and stays when it was scored. *)
Theorem scoreSolution_overwrites input e r e' :
  scoreSolution input e = (Ok r, e') →
  ∃ solutionId checkId score s s',
    ScoreInput.solutionId input = Some solutionId ∧
    ScoreInput.checkId input = Some checkId ∧
    ScoreInput.score input = Some score ∧
    solutionAt e solutionId = Some s ∧ solutionAt e' solutionId = Some s' ∧
    Solution.scores s' = <[checkId := score]> (Solution.scores s) ∧
    Solution.scores s' !! checkId = Some score ∧
    size (Solution.scores s') =
      match Solution.scores s !! checkId with
      | Some _ => size (Solution.scores s)
      | None => S (size (Solution.scores s))
      end.
Proof.
  intros H.
  destruct (scoreSolution_Ok _ _ _ _ H)
    as (st & sid & cid & q & a & c & s & Hst & Hsid & Hne1 & Hcid & Hne2 & Hq & Hrange
        & Ha & Hc & Hs & best' & -> & _ & _).
  assert (Hlt : a < length (store e)) by (by eapply lookup_lt_Some).
  exists sid, cid, q, s, (rescored st s cid q). do 3 (split; [done|]).
  split. { unfold solutionAt. rewrite Hst. simpl. by rewrite Ha. }
  split. { unfold solutionAt. simpl. rewrite Ha. simpl. by apply list_lookup_insert_eq. }
  split; [done|]. simpl. split; [by rewrite lookup_insert_eq|].
  destruct (Solution.scores s !! cid) as [old|] eqn:Hold.
  - rewrite <- (insert_delete_eq (Solution.scores s) cid q).
    rewrite <- (insert_delete_id (Solution.scores s) cid old) at 2 by done.
    by rewrite !map_size_insert_None by apply lookup_delete_eq.
  - by apply map_size_insert_None.
Qed.

Lemma scoreSolution_overwrites_witness :
  ∃ r e' s',
    scoreSolution (demo_score "s1" "check_1" (3 # 4)) demo = (Ok r, e') ∧
    solutionAt e' "s1" = Some s' ∧
    Solution.scores s' !! "check_1" = Some (3 # 4)%Q ∧
    size (Solution.scores s') = 2.
Proof.
  destruct (scoreSolution_overwrites (demo_score "s1" "check_1" (3 # 4)) demo _ _
              ltac:(vm_compute; reflexivity))
    as (sid & cid & q & s & s' & Hsid & Hcid & Hq & Hs & Hs' & _ & Hlook & Hsize).
  injection Hsid as <-. injection Hcid as <-. injection Hq as <-.
  vm_compute in Hs. injection Hs as <-.
  eexists _, _, s'. split; [vm_compute; reflexivity|]. split; [exact Hs'|].
  split; [exact Hlook|]. exact Hsize.
Defined.

(** X9. Whatever calls were made before, the [isFullyScored] flag of a
    scored report is true exactly when the solution then has a score for
    every check of the session. *)
Theorem scoreSolution_isFullyScored calls input r e' :
  scoreSolution input (run calls initial) = (Ok r, e') →
  ∃ st solutionId s' flag,
    evolutionState (run calls initial) = Some st ∧
    ScoreInput.solutionId input = Some solutionId ∧
    solutionAt e' solutionId = Some s' ∧
    fullyScoredOf r = Some flag ∧
    (flag = true ↔ scored_on_every_check st s').
Proof.
  intros H.
  assert (Hwf : well_formed (run calls initial))
    by apply run_well_formed, initial_well_formed.
  set (e := run calls initial) in *. clearbody e.
  pose proof (call_well_formed (CallScore input) e Hwf) as Hwf'.
  simpl in Hwf'. rewrite H in Hwf'. simpl in Hwf'.
  destruct (scoreSolution_Ok _ _ _ _ H)
    as (st & sid & cid & q & a & c & s & Hst & Hsid & Hne1 & Hcid & Hne2 & Hq & Hrange
        & Ha & Hc & Hs & best' & -> & _ & ->).
  assert (Hlt : a < length (store e)) by (by eapply lookup_lt_Some).
  exists st, sid, (rescored st s cid q), (isFullyScored st (rescored st s cid q)).
  do 2 (split; [done|]).
  split. { unfold solutionAt. simpl. rewrite Ha. simpl. by apply list_lookup_insert_eq. }
  split; [done|].
  assert (Hs' : <[a := rescored st s cid q]> (store e) !! a = Some (rescored st s cid q))
    by (by apply list_lookup_insert_eq).
  exact (isFullyScored_iff (mkEngine _ _) (with_bestSolution st (Some best')) a _
           eq_refl Hwf' Hs').
Qed.

Lemma scoreSolution_isFullyScored_witness :
  ∃ r e' st s',
    scoreSolution (demo_score "s1" "check_2" 1) (run scenario_calls initial) = (Ok r, e') ∧
    evolutionState (run scenario_calls initial) = Some st ∧
    solutionAt e' "s1" = Some s' ∧
    fullyScoredOf r = Some false ∧
    ¬ scored_on_every_check st s'.
Proof.
  destruct (scoreSolution_isFullyScored scenario_calls (demo_score "s1" "check_2" 1) _ _
              ltac:(vm_compute; reflexivity))
    as (st & sid & s' & flag & Hst & Hsid & Hs' & Hflag & Hiff).
  injection Hsid as <-. injection Hflag as <-.
  eexists _, _, st, s'. split; [vm_compute; reflexivity|].
  split; [exact Hst|]. split; [exact Hs'|]. split; [reflexivity|].
  intros Hall. apply Hiff in Hall. discriminate Hall.
Defined.

(** ** Scores stay in range *)

Lemma call_scores_in_range c e :
  well_formed e → scores_in_range e → scores_in_range (snd (call c e)).
Proof.
  intros Hwf Hinv. destruct (call c e) as [[r|err] e'] eqn:Hcall; simpl;
    [|by rewrite (call_Failed _ _ _ _ Hwf Hcall)].
  destruct c as [input now|input newId now|input|now|now]; simpl in Hcall.
  - destruct (startEvolution_cases input now e)
      as [(err' & Hf & _)|(p & checks & cs & _ & _ & _ & _ & Hok)]; [congruence|].
    rewrite Hok in Hcall. injection Hcall as <- <-. by intros a s Hs.
  - destruct (addSolution_cases input newId now e)
      as [(err' & Hf)|(st & content & Hst & _ & _ & Hok)]; [congruence|].
    rewrite Hok in Hcall. injection Hcall as <- <-.
    intros a s Hs. simpl in Hs.
    apply lookup_app_Some in Hs as [Hs|[_ Hs]]; [by eapply Hinv|].
    destruct (a - length (store e)) as [|n]; simpl in Hs; [|done].
    injection Hs as <-. simpl. apply map_Forall_empty.
  - destruct (scoreSolution_Ok _ _ _ _ Hcall)
      as (st & sid & cid & q & a & c0 & s & Hst & _ & _ & _ & _ & _ & Hrange
          & Ha & Hc & Hs & best' & -> & _ & _).
    assert (Hlt : a < length (store e)) by (by eapply lookup_lt_Some).
    intros a' s' Hs'. simpl in Hs'. destruct (decide (a' = a)) as [->|Hne].
    + rewrite list_lookup_insert_eq in Hs' by done. injection Hs' as <-. simpl.
      apply map_Forall_insert_2; [done|]. by eapply Hinv.
    + rewrite list_lookup_insert_ne in Hs' by done. by eapply Hinv.
  - destruct (evolveGeneration_Ok _ _ _ _ Hcall)
      as (st & ids & sols & recs & Hst & _ & _ & _ & _ & _ & Hout).
    destruct (hasConverged _ _ || maxGenerationsReached st);
      destruct Hout as [-> _]; exact Hinv.
  - pose proof (getEvolutionStatus_unchanged now e) as Hs. rewrite Hcall in Hs.
    simpl in Hs. by subst.
Qed.

Lemma run_scores_in_range calls e :
  well_formed e → scores_in_range e → scores_in_range (run calls e).
Proof.
  revert e. induction calls as [|c calls IH]; intros e Hwf Hinv; [done|].
  simpl. apply IH; [by apply call_well_formed|by apply call_scores_in_range].
Qed.

(** X10. Whatever calls were made, every score a solution holds lies in
    [0,1]: no score enters a solution without passing the range test. *)
Theorem stored_scores_in_range calls i s k q :
  solutionAt (run calls initial) i = Some s →
  Solution.scores s !! k = Some q →
  (0 <= q <= 1)%Q.
Proof.
  intros Hs Hk.
  assert (Hinv : scores_in_range (run calls initial)).
  { apply run_scores_in_range; [apply initial_well_formed|]. by intros a' s' Hs'. }
  unfold solutionAt in Hs.
  destruct (evolutionState (run calls initial)) as [st|]; [|done]. simpl in Hs.
  destruct (solutions st !! i) as [a|]; [|done]. simpl in Hs.
  by apply (Hinv a s Hs k q).
Qed.

Lemma stored_scores_in_range_witness :
  ∃ s q,
    solutionAt (run demo_calls initial) "s2" = Some s ∧
    Solution.scores s !! "check_2" = Some q ∧
    (0 <= q <= 1)%Q.
Proof.
  eexists _, _.
  split; [vm_compute; reflexivity|]. split; [vm_compute; reflexivity|].
  eapply (stored_scores_in_range demo_calls "s2" _ "check_2").
  - vm_compute; reflexivity.
  - vm_compute; reflexivity.
Defined.

(** ** evolveGeneration: what it leaves alone *)

(** X11. A successful [evolveGeneration] writes one field: [isComplete]
    when it completes, [currentGeneration] when it evolves.  The solution
    objects, the map of solutions, the history, [bestSolution], the checks
    and the configuration are as before. *)
Theorem evolveGeneration_frame now e r e' :
  evolveGeneration now e = (Ok r, e') →
  ∃ st st',
    evolutionState e = Some st ∧ evolutionState e' = Some st' ∧
    store e' = store e ∧
    problemStatement st' = problemStatement st ∧
    consistencyChecks st' = consistencyChecks st ∧
    maxGenerations st' = maxGenerations st ∧
    populationSize st' = populationSize st ∧
    convergenceThreshold st' = convergenceThreshold st ∧
    solutions st' = solutions st ∧
    generationHistory st' = generationHistory st ∧
    bestSolution st' = bestSolution st ∧
    startTime st' = startTime st ∧
    (status r = "complete" ∧ isComplete st' = true ∧
     currentGeneration st' = currentGeneration st
     ∨ status r = "evolved" ∧ isComplete st' = isComplete st ∧
       currentGeneration st' = currentGeneration st + 1).
Proof.
  intros H.
  destruct (evolveGeneration_Ok _ _ _ _ H)
    as (st & ids & sols & recs & Hst & _ & _ & _ & _ & _ & Hout).
  destruct (hasConverged _ _ || maxGenerationsReached st).
  - destruct Hout as [-> ->]. exists st, (with_isComplete st true).
    do 12 (split; [done|]). by left.
  - destruct Hout as [-> (focus & _ & ->)].
    exists st, (with_currentGeneration st (currentGeneration st + 1)).
    do 12 (split; [done|]). by right.
Qed.

Lemma evolveGeneration_frame_witness :
  ∃ r e' st st',
    evolveGeneration 200 demo = (Ok r, e') ∧
    evolutionState demo = Some st ∧ evolutionState e' = Some st' ∧
    store e' = store demo ∧ bestSolution st' = bestSolution st ∧
    generationHistory st' = generationHistory st.
Proof.
  eexists _, _.
  destruct (evolveGeneration_frame 200 demo _ _ ltac:(vm_compute; reflexivity))
    as (st & st' & Hst & Hst' & Hstore & _ & _ & _ & _ & _ & _ & Hh & Hb & _).
  exists st, st'. split; [vm_compute; reflexivity|].
  exact (conj Hst (conj Hst' (conj Hstore (conj Hb Hh)))).
Defined.



(** ** The history stays sound *)

Lemma call_history_sound c e :
  well_formed e → history_sound e → history_sound (snd (call c e)).
Proof.
  intros Hwf Hinv. destruct (call c e) as [[r|err] e'] eqn:Hcall; simpl;
    [|by rewrite (call_Failed _ _ _ _ Hwf Hcall)].
  destruct c as [input now|input newId now|input|now|now]; simpl in Hcall.
  - destruct (startEvolution_cases input now e)
      as [(err' & Hf & _)|(p & checks & cs & _ & _ & _ & _ & Hok)]; [congruence|].
    rewrite Hok in Hcall. injection Hcall as <- <-.
    intros st [= <-] g ids Hg. simpl in Hg. by rewrite lookup_empty in Hg.
  - destruct (addSolution_cases input newId now e)
      as [(err' & Hf)|(st & content & Hst & _ & _ & Hok)]; [congruence|].
    rewrite Hok in Hcall. injection Hcall as <- <-.
    intros st' [= <-] g ids Hg. simpl in Hg |- *.
    destruct (decide (g = currentGeneration st)) as [->|Hne].
    + rewrite lookup_insert_eq in Hg. injection Hg as <-. split; [done|].
      intros i [Hi|Hi%list_elem_of_singleton]%elem_of_app.
      * destruct (generationHistory st !! currentGeneration st) as [old|] eqn:Hold;
          simpl in Hi; [|by apply elem_of_nil in Hi].
        destruct (Hinv st Hst _ _ Hold) as [_ Hin].
        destruct (decide (i = newId)) as [->|Hi'].
        -- rewrite lookup_insert_eq. by eexists.
        -- rewrite lookup_insert_ne by done. by apply Hin.
      * subst. rewrite lookup_insert_eq. by eexists.
    + rewrite lookup_insert_ne in Hg by done.
      destruct (Hinv st Hst _ _ Hg) as [Hle Hin]. split; [done|].
      intros i Hi. destruct (decide (i = newId)) as [->|Hi'].
      * rewrite lookup_insert_eq. by eexists.
      * rewrite lookup_insert_ne by done. by apply Hin.
  - destruct (scoreSolution_Ok _ _ _ _ Hcall)
      as (st & sid & cid & q & a & c0 & s & Hst & _ & _ & _ & _ & _ & _
          & Ha & Hc & Hs & best' & -> & _ & _).
    intros st' [= <-] g ids Hg. simpl in Hg |- *. by apply (Hinv st Hst).
  - destruct (evolveGeneration_Ok _ _ _ _ Hcall)
      as (st & ids & sols & recs & Hst & _ & _ & _ & _ & _ & Hout).
    destruct (hasConverged _ _ || maxGenerationsReached st); destruct Hout as [-> _];
      intros st' [= <-] g ids' Hg; simpl in Hg |- *;
      destruct (Hinv st Hst _ _ Hg) as [Hle Hin]; (split; [lia|done]).
  - pose proof (getEvolutionStatus_unchanged now e) as Hs. rewrite Hcall in Hs.
    simpl in Hs. by subst.
Qed.

Lemma run_history_sound calls : history_sound (run calls initial).
Proof.
  assert (H : ∀ e, well_formed e → history_sound e → history_sound (run calls e)).
  { induction calls as [|c calls IH]; intros e Hwf Hinv; [done|].
    simpl. apply IH; [by apply call_well_formed|by apply call_history_sound]. }
  apply H; [apply initial_well_formed|]. by intros st.
Qed.

(** In a reachable engine every listed id resolves. *)
Lemma resolve_is_Some calls st ids :
  evolutionState (run calls initial) = Some st →
  generationHistory st !! currentGeneration st = Some ids →
  is_Some (resolve (run calls initial) st ids).
Proof.
  intros Hst Hids.
  assert (Hwf : well_formed (run calls initial))
    by apply run_well_formed, initial_well_formed.
  destruct (run_history_sound calls st Hst _ _ Hids) as [_ Hin].
  unfold well_formed in Hwf. rewrite Hst in Hwf. destruct Hwf as (_ & _ & _ & Hreg).
  unfold resolve. apply mapM_is_Some, Forall_forall. intros i Hi.
  destruct (Hin i Hi) as [a Ha]. unfold compose. rewrite Ha. simpl.
  destruct (Hreg i a Ha) as (s & Hs & _). by exists s.
Qed.

(** ** evolveGeneration: the generation that follows *)

(** X13. Whatever calls were made before, the generation an evolved report
    opens is empty: an [evolveGeneration] call that follows at once fails
    for want of solutions and leaves the engine as it is. *)
Theorem evolveGeneration_opens_empty_generation calls now now' r e1 :
  evolveGeneration now (run calls initial) = (Ok r, e1) →
  status r = "evolved" →
  evolveGeneration now' e1 = (Failed NoSolutions, e1) ∧
  ∃ st1, evolutionState e1 = Some st1 ∧
         generationHistory st1 !! currentGeneration st1 = None.
Proof.
  intros H Hevolved.
  pose proof (run_history_sound calls) as Hsound.
  set (e := run calls initial) in *. clearbody e.
  destruct (evolveGeneration_Ok _ _ _ _ H)
    as (st & ids & sols & recs & Hst & _ & _ & _ & _ & _ & Hout).
  destruct (hasConverged st _ || maxGenerationsReached st).
  { destruct Hout as [_ ->]. discriminate Hevolved. }
  destruct Hout as [-> _].
  assert (Hnone : generationHistory st !! (currentGeneration st + 1) = None).
  { destruct (generationHistory st !! (currentGeneration st + 1)) as [ids'|] eqn:Hg; [|done].
    destruct (Hsound st Hst _ _ Hg) as [Hle _]. lia. }
  split; [|by eexists].
  unfold evolveGeneration, bind, getState, throw.
  cbn [evolutionState with_currentGeneration generationHistory currentGeneration].
  by rewrite Hnone.
Qed.

Lemma evolveGeneration_opens_empty_generation_witness :
  ∃ r e1,
    evolveGeneration 200 (run demo_calls initial) = (Ok r, e1) ∧
    evolveGeneration 201 e1 = (Failed NoSolutions, e1).
Proof.
  eexists _, _. split; [vm_compute; reflexivity|].
  eapply (evolveGeneration_opens_empty_generation demo_calls 200 201).
  - vm_compute; reflexivity.
  - reflexivity.
Defined.

(** ** getEvolutionStatus *)

(** X14. [getEvolutionStatus] never changes the engine.  Without a session
    it reports [not_started]; whatever calls were made before, with a
    session it reports [active], and the population it counts is the
    number of ids listed in the current generation, of which the fully
    scored ones are a part. *)
Theorem getEvolutionStatus_reads calls now :
  snd (getEvolutionStatus now (run calls initial)) = run calls initial ∧
  (evolutionState (run calls initial) = None →
   fst (getEvolutionStatus now (run calls initial)) = Ok StatusNotStarted) ∧
  (∀ st,
     evolutionState (run calls initial) = Some st →
     ∃ r population fullyScored,
       fst (getEvolutionStatus now (run calls initial)) = Ok r ∧
       status r = "active" ∧
       populationOf r = Some (population, fullyScored) ∧
       population
         = length (default [] (generationHistory st !! currentGeneration st)) ∧
       fullyScored <= population).
Proof.
  split; [apply getEvolutionStatus_unchanged|]. split.
  - intros Hnone. unfold getEvolutionStatus. by rewrite Hnone.
  - intros st Hst. unfold getEvolutionStatus. rewrite Hst.
    assert (Hres : is_Some (resolve (run calls initial) st
                     (default [] (generationHistory st !! currentGeneration st)))).
    { destruct (generationHistory st !! currentGeneration st) as [ids|] eqn:Hids.
      - by apply resolve_is_Some.
      - by eexists. }
    destruct Hres as [sols Hsols]. rewrite Hsols.
    eexists _, _, _. split; [reflexivity|]. split; [done|]. split; [done|].
    split.
    + unfold resolve in Hsols. rewrite mapM_Some in Hsols.
      symmetry. by eapply Forall2_length.
    + apply filter_length_le.
Qed.

Lemma getEvolutionStatus_reads_witness :
  snd (getEvolutionStatus 300 (run demo_calls initial)) = run demo_calls initial ∧
  ∃ r,
    fst (getEvolutionStatus 300 (run demo_calls initial)) = Ok r ∧
    populationOf r = Some (2, 2).
Proof.
  destruct (getEvolutionStatus_reads demo_calls 300) as (Hsame & _ & Hactive).
  split; [exact Hsame|].
  eexists. split; vm_compute; reflexivity.
Defined.

(** ** What no call but a start undoes *)

(** X15. Whatever calls were made before, a call other than a start keeps
    every solution object, with its id, content, generation, parent ids and
    timestamp, and with every score it had: solution objects are never
    deleted and a check once scored is never unscored. *)
Theorem solutions_persist calls c a s :
  is_start c = false →
  store (run calls initial) !! a = Some s →
  ∃ s', store (snd (call c (run calls initial))) !! a = Some s' ∧
    Solution.id s' = Solution.id s ∧
    Solution.content s' = Solution.content s ∧
    Solution.generation s' = Solution.generation s ∧
    Solution.parentSolutions s' = Solution.parentSolutions s ∧
    Solution.timestamp s' = Solution.timestamp s ∧
    ∀ k, is_Some (Solution.scores s !! k) → is_Some (Solution.scores s' !! k).
Proof.
  intros Hc Hs.
  assert (Hwf : well_formed (run calls initial))
    by apply run_well_formed, initial_well_formed.
  set (e := run calls initial) in *. clearbody e.
  destruct (call c e) as [[r|err] e'] eqn:Hcall; simpl;
    [|rewrite (call_Failed _ _ _ _ Hwf Hcall); by exists s].
  destruct c as [input now|input newId now|input|now|now]; simpl in Hcall; [done|..].
  - destruct (addSolution_cases input newId now e)
      as [(err' & Hf)|(st & content & Hst & _ & _ & Hok)]; [congruence|].
    rewrite Hok in Hcall. injection Hcall as <- <-.
    exists s. split; [by apply lookup_app_l_Some|done].
  - destruct (scoreSolution_Ok _ _ _ _ Hcall)
      as (st & sid & cid & q & a0 & c0 & s0 & Hst & _ & _ & _ & _ & _ & _
          & Ha & _ & Hs0 & best' & -> & _ & _).
    assert (Hlt : a0 < length (store e)) by (by eapply lookup_lt_Some).
    simpl. destruct (decide (a = a0)) as [->|Hne].
    + pose proof (eq_trans (eq_sym Hs) Hs0) as [= <-].
      exists (rescored st s cid q). split; [by apply list_lookup_insert_eq|].
      do 5 (split; [done|]). intros k Hk. simpl.
      destruct (decide (k = cid)) as [->|Hk'].
      * rewrite lookup_insert_eq. by eexists.
      * by rewrite lookup_insert_ne.
    + exists s. split; [by rewrite list_lookup_insert_ne|done].
  - destruct (evolveGeneration_Ok _ _ _ _ Hcall)
      as (st & ids & sols & recs & Hst & _ & _ & _ & _ & _ & Hout).
    destruct (hasConverged _ _ || maxGenerationsReached st);
      destruct Hout as [-> _]; by exists s.
  - pose proof (getEvolutionStatus_unchanged now e) as Hu. rewrite Hcall in Hu.
    simpl in Hu. subst. by exists s.
Qed.

Lemma solutions_persist_witness :
  ∃ s s',
    store (run demo_calls initial) !! 0 = Some s ∧
    store (snd (call (CallScore (demo_score "s1" "check_1" 1)) (run demo_calls initial))) !! 0
      = Some s' ∧
    Solution.content s' = Solution.content s ∧
    ∀ k, is_Some (Solution.scores s !! k) → is_Some (Solution.scores s' !! k).
Proof.
  eexists _.
  edestruct (solutions_persist demo_calls (CallScore (demo_score "s1" "check_1" 1)) 0)
    as (s' & Hs' & _ & Hc & _ & _ & _ & Hk); [reflexivity|vm_compute; reflexivity|].
  exists s'. split; [vm_compute; reflexivity|].
  exact (conj Hs' (conj Hc Hk)).
Defined.

(** X16. Whatever calls were made before, a call other than a start keeps
    the session and its problem statement, checks, configuration and start
    time, keeps every id of [solutions], never lowers the generation counter
    and never clears [isComplete]; the counter and the flag are changed by
    [evolveGeneration] alone, the counter by one. *)
Theorem session_persists calls c st :
  is_start c = false →
  evolutionState (run calls initial) = Some st →
  ∃ st', evolutionState (snd (call c (run calls initial))) = Some st' ∧
    problemStatement st' = problemStatement st ∧
    consistencyChecks st' = consistencyChecks st ∧
    maxGenerations st' = maxGenerations st ∧
    populationSize st' = populationSize st ∧
    convergenceThreshold st' = convergenceThreshold st ∧
    startTime st' = startTime st ∧
    (∀ i, is_Some (solutions st !! i) → is_Some (solutions st' !! i)) ∧
    (currentGeneration st' = currentGeneration st ∨
     currentGeneration st' = currentGeneration st + 1) ∧
    (isComplete st = true → isComplete st' = true) ∧
    ((∀ now, c ≠ CallEvolve now) →
     currentGeneration st' = currentGeneration st ∧ isComplete st' = isComplete st).
Proof.
  intros Hc Hst.
  assert (Hwf : well_formed (run calls initial))
    by apply run_well_formed, initial_well_formed.
  set (e := run calls initial) in *. clearbody e.
  destruct (call c e) as [[r|err] e'] eqn:Hcall; simpl.
  2:{ rewrite (call_Failed _ _ _ _ Hwf Hcall). exists st.
      do 8 (split; [done|]). split; [by left|]. done. }
  destruct c as [input now|input newId now|input|now|now]; simpl in Hcall; [done|..].
  - destruct (addSolution_cases input newId now e)
      as [(err' & Hf)|(st0 & content & Hst0 & _ & _ & Hok)]; [congruence|].
    rewrite Hok in Hcall. injection Hcall as <- <-.
    rewrite Hst in Hst0. injection Hst0 as <-.
    eexists. split; [done|]. simpl. do 6 (split; [done|]).
    split. { intros i Hi. destruct (decide (i = newId)) as [->|Hne].
             - rewrite lookup_insert_eq. by eexists.
             - by rewrite lookup_insert_ne. }
    split; [by left|]. done.
  - destruct (scoreSolution_Ok _ _ _ _ Hcall)
      as (st0 & sid & cid & q & a0 & c0 & s0 & Hst0 & _ & _ & _ & _ & _ & _
          & Ha & _ & Hs0 & best' & -> & _ & _).
    rewrite Hst in Hst0. injection Hst0 as <-.
    eexists. split; [done|]. simpl. do 7 (split; [done|]).
    split; [by left|]. done.
  - destruct (evolveGeneration_Ok _ _ _ _ Hcall)
      as (st0 & ids & sols & recs & Hst0 & _ & _ & _ & _ & _ & Hout).
    rewrite Hst in Hst0. injection Hst0 as <-.
    destruct (hasConverged _ _ || maxGenerationsReached st);
      destruct Hout as [-> _]; (eexists; split; [done|]); simpl;
      do 7 (split; [done|]).
    + split; [by left|]. split; [done|]. intros Hne. by destruct (Hne now).
    + split; [by right|]. split; [done|]. intros Hne. by destruct (Hne now).
  - pose proof (getEvolutionStatus_unchanged now e) as Hu. rewrite Hcall in Hu.
    simpl in Hu. subst. exists st. do 8 (split; [done|]). split; [by left|]. done.
Qed.

Lemma session_persists_witness :
  ∃ st st',
    evolutionState (run demo_calls initial) = Some st ∧
    evolutionState (snd (call (CallEvolve 9) (run demo_calls initial))) = Some st' ∧
    consistencyChecks st' = consistencyChecks st ∧
    (currentGeneration st' = currentGeneration st ∨
     currentGeneration st' = currentGeneration st + 1).
Proof.
  eexists _.
  edestruct (session_persists demo_calls (CallEvolve 9))
    as (st' & Hst' & _ & Hc & _ & _ & _ & _ & _ & Hg & _);
    [reflexivity|vm_compute; reflexivity|].
  exists st'. split; [vm_compute; reflexivity|].
  exact (conj Hst' (conj Hc Hg)).
Defined.

(** ** The scenarios of the specification *)

(** Scenario A: both solutions land in generation 0. *)
Example scenario_A :
  (evolutionState (run scenario_calls initial) ≫= fun st => generationHistory st !! 0)
  = Some ["s1"; "s2"].
Proof. vm_compute; reflexivity. Qed.

(** Scenario B: scored 1 on both checks, the first solution has composite
    score 1 and is the best one. *)
Example scenario_B :
  ∃ c, bestCompositeScore (run scenario_scored initial) = Some (Fin c) ∧ (c == 1)%Q ∧
       (evolutionState (run scenario_scored initial) ≫= bestSolution) = Some 0.
Proof. eexists. split; [vm_compute; reflexivity|]. split; reflexivity. Qed.

(** Scenario C: with the default threshold the next evolution completes by
    convergence and the generation counter stays at 0. *)
Example scenario_C :
  ∃ r e',
    evolveGeneration 9 (run scenario_scored initial) = (Ok r, e') ∧
    status r = "complete" ∧ reasonOf r = Some convergence ∧
    (currentGeneration <$> evolutionState e') = Some 0.
Proof. eexists _, _. split; [vm_compute; reflexivity|]. by vm_compute. Qed.

(** Scenario D: with [maxGenerations = 1] a composite score of 3/10
    completes the evolution for [max_generations]. *)
Example scenario_D :
  let calls :=
    [ CallStart (StartInput.mk (Some "p") (Some [CheckString "c"]) (Some 1%Q) None None) 0;
      CallAdd (AddInput.mk (Some "x") None) "s1" 1;
      CallScore (demo_score "s1" "check_1" (3 # 10)) ] in
  ∃ r e',
    evolveGeneration 9 (run calls initial) = (Ok r, e') ∧
    reasonOf r = Some max_generations ∧
    (isComplete <$> evolutionState e') = Some true.
Proof. eexists _, _. split; [vm_compute; reflexivity|]. by vm_compute. Qed.

(** Scenario E: a score of 1.5 is rejected and nothing changes. *)
Example scenario_E :
  scoreSolution (demo_score "s1" "check_1" (3 # 2)) (run scenario_scored initial)
  = (Failed ScoreRequired, run scenario_scored initial).
Proof. vm_compute; reflexivity. Qed.

(** Scenario F: evolving a generation without solutions is rejected and
    nothing changes. *)
Example scenario_F :
  evolveGeneration 9 (run [CallStart demo_start 0] initial)
  = (Failed NoSolutions, run [CallStart demo_start 0] initial).
Proof. vm_compute; reflexivity. Qed.
